(** * Protego: the composition and error-unification engine

    A shallow embedding of the Go package [validation] (generic validators,
    the sequential runner, the combinators of helpers.go, the collection and
    map validators and the type-adaptation shims of collection.go) together
    with the properties its specification states about them.

    Go values are modelled as follows.
    - [error] (an interface value that may be nil) is [option error], where
      [error] lists the concrete error types the package can produce.
    - A [Validator[T]] is a Go function and may have effects; it is a
      function into the state monad [M W] over an arbitrary world [W], so
      that "is invoked" / "is not invoked" are statements about the world.
    - [map[string]V] is a [gmap string V]; the order in which [range] yields
      its keys is unspecified in Go and is an explicit argument. *)

From Stdlib Require Import String Ascii ZArith DecimalString SpecFloat.
From stdpp Require Import base option list gmap strings fin_maps.

Local Open Scope list_scope.

(** ** Errors *)

Module Errors.

(** The dynamic types an [error] value of this package can have:
    [*errors.errorString] (errors.New, fmt.Errorf without [%w]),
    [*fmt.wrapError] (fmt.Errorf with one [%w]),
    [*errors.joinError] (errors.Join) and [*validation.Error]. *)
#[local] Unset Elimination Schemes.
Inductive error : Type :=
| errorString (s : string)
| wrapError (msg : string) (err : error)
| joinError (errs : list error)
| validationError (message : string) (cause : option error).
#[local] Set Elimination Schemes.

Definition newline : string := String (ascii_of_nat 10) EmptyString.

(** The [Error() string] method. A joinError prints its members separated by
    newlines; a wrapError prints the message fmt.Errorf formatted. *)
Fixpoint Error (e : error) : string :=
  match e with
  | errorString s => s
  | wrapError msg _ => msg
  | joinError errs => String.concat newline (List.map Error errs)
  | validationError message _ => message
  end.

(** [errors.New]. *)
Definition errors_New (text : string) : error := errorString text.

(** [errors.Join(errs...)]: nil values are discarded; nil when nothing is
    left, otherwise a joinError of the remaining errors in order. *)
Definition errors_Join (errs : list (option error)) : option error :=
  match omap id errs with
  | [] => None
  | es => Some (joinError es)
  end.

(** [fmt.Errorf(prefix + "%w", err)]: the formatted text with [err] as the
    wrapped error. A nil operand makes fmt print its bad-verb marker and
    nothing is wrapped. *)
Definition fmt_Errorf_w (prefix : string) (err : option error) : error :=
  match err with
  | Some e => wrapError (prefix +:+ Error e) e
  | None => errorString (prefix +:+ "%!w(<nil>)")
  end.

(** [errors.Unwrap]: the result of the [Unwrap() error] method, if the error
    has one. A joinError only has [Unwrap() []error], so it unwraps to nil. *)
Definition Unwrap (err : option error) : option error :=
  match err with
  | Some (wrapError _ e) => Some e
  | Some (validationError _ cause) => cause
  | _ => None
  end.

(** The chain obtained by unwrapping [n] times. *)
Fixpoint Unwrap_n (n : nat) (err : option error) : option error :=
  match n with
  | O => err
  | S n' => Unwrap_n n' (Unwrap err)
  end.

(** Modelled from the spec: error.go (type Error, NewValidationError,
    WrapError, IsValidationError) is not among the sources. Section 4.1:
    [newError(message)] always produces a validation error; a leaf error
    has no cause. *)
Definition NewValidationError (message : string) : error :=
  validationError message None.

(** Modelled from the spec: the identity test of error.go. Section 4.1:
    false for nil; true for any error constructed or wrapped by the model,
    including ones reachable through a cause chain or a join. This is the
    walk errors.As performs over [Unwrap() error] and [Unwrap() []error]. *)
Fixpoint is_validation (e : error) : bool :=
  match e with
  | errorString _ => false
  | wrapError _ err => is_validation err
  | joinError errs => existsb is_validation errs
  | validationError _ _ => true
  end.

Definition IsValidationError (err : option error) : bool :=
  match err with
  | None => false
  | Some e => is_validation e
  end.

(** Modelled from the spec: WrapError of error.go. Section 4.1: nil for nil;
    an error that already is a validation error is returned unchanged;
    any other error is wrapped, its message kept as the outer message and
    the error itself kept as the unwrap target. *)
Definition WrapError (err : option error) : option error :=
  match err with
  | None => None
  | Some e =>
      if IsValidationError (Some e) then Some e
      else Some (validationError (Error e) (Some e))
  end.

End Errors.
Export Errors.

(** ** Effects: validators are Go functions *)

(** A computation over a world of type [W]. *)
Definition M (W A : Type) : Type := W → A * W.

Definition ret {W A} (a : A) : M W A := λ s, (a, s).

Definition bind {W A B} (m : M W A) (k : A → M W B) : M W B :=
  λ s, let '(a, s') := m s in k a s'.

Notation "'call' x ':=' m 'in' k" := (bind m (λ x, k))
  (at level 10, x name, m at level 100, k at level 200).

(** [type Validator[T any] func(T) error] *)
Definition Validator (W T : Type) : Type := T → M W (option error).

(** A validator without effects. *)
Definition pure_validator {W T} (f : T → option error) : Validator W T :=
  λ v, ret (f v).

(** A call-recording stub: behaves as [f] and appends [tag] to the log. *)
Definition probe {T} (tag : nat) (f : T → option error) : Validator (list nat) T :=
  λ v log, (f v, log ++ [tag]).

(** ** validation.go *)

Section Runner.
Context {W T : Type}.

(** [func Validate[T any](value T, validators ...Validator[T]) error] *)
Fixpoint Validate (value : T) (validators : list (Validator W T)) : M W (option error) :=
  match validators with
  | [] => ret None
  | validator :: rest =>
      call err := validator value in
      match err with
      | Some e => ret (Some e)
      | None => Validate value rest
      end
  end.

(** Every validator of [vs], called in order on [value] from world [s],
    passes; the world after the last call is [s']. *)
Inductive all_pass (value : T) : list (Validator W T) → W → W → Prop :=
| all_pass_nil s : all_pass value [] s s
| all_pass_cons v vs s s1 s2 :
    v value s = (None, s1) → all_pass value vs s1 s2 →
    all_pass value (v :: vs) s s2.

End Runner.

(** ** helpers.go *)

Section Helpers.
Context {W T : Type}.

(** [func WithMessage[T any](validator Validator[T], message string) Validator[T]] *)
Definition WithMessage (validator : Validator W T) (message : string) : Validator W T :=
  λ v,
    call err := validator v in
    match err with
    | Some _ => ret (Some (NewValidationError message))
    | None => ret None
    end.

(** [func And[T any](validators ...Validator[T]) Validator[T]] *)
Fixpoint And (validators : list (Validator W T)) : Validator W T :=
  λ v,
    match validators with
    | [] => ret None
    | validator :: rest =>
        call err := validator v in
        match err with
        | Some e => ret (Some e)
        | None => And rest v
        end
    end.

(** The loop of [Or]: [inl tt] when a validator passed and the function
    returned nil from inside the loop, [inr errs] with the collected
    failures when the loop ran to its end. *)
Fixpoint Or_loop (validators : list (Validator W T)) (v : T) (errs : list error)
  : M W (unit + list error) :=
  match validators with
  | [] => ret (inr errs)
  | validator :: rest =>
      call err := validator v in
      match err with
      | None => ret (inl tt)
      | Some e => Or_loop rest v (errs ++ [e])
      end
  end.

(** [func Or[T any](validators ...Validator[T]) Validator[T]] *)
Definition Or (validators : list (Validator W T)) : Validator W T :=
  λ v,
    call r := Or_loop validators v [] in
    match r with
    | inl _ => ret None
    | inr errs =>
        if Nat.eqb (length errs) 1 then ret (errs !! 0%nat)
        else ret (WrapError (Some (fmt_Errorf_w "all validators failed: "
                                     (errors_Join (Some <$> errs)))))
    end.

(** [func Not[T any](validator Validator[T]) Validator[T]] *)
Definition Not (validator : Validator W T) : Validator W T :=
  λ v,
    call err := validator v in
    match err with
    | Some _ => ret None
    | None => ret (Some (NewValidationError "validation should have failed but passed"))
    end.

(** [func When[T any](condition bool, validator Validator[T]) Validator[T]] *)
Definition When (condition : bool) (validator : Validator W T) : Validator W T :=
  λ v, if negb condition then ret None else validator v.

(** [func Unless[T any](condition bool, validator Validator[T]) Validator[T]] *)
Definition Unless (condition : bool) (validator : Validator W T) : Validator W T :=
  When (negb condition) validator.

(** [func Custom[T any](fn func(T) error) Validator[T]] *)
Definition Custom (fn : T → M W (option error)) : Validator W T := fn.

End Helpers.

(** ** collection.go *)

(** The verb [%d] of fmt on a non-negative int. *)
Definition fmt_d (i : nat) : string := NilZero.string_of_uint (Nat.to_uint i).

Section Collection.
Context {W T : Type}.

(** The loop of [Each]: [i] is the index of the head of [values], [errs]
    the failures collected so far. *)
Fixpoint Each_loop (elementValidator : Validator W T) (i : nat) (values : list T)
    (errs : list error) : M W (list error) :=
  match values with
  | [] => ret errs
  | v :: rest =>
      call err := elementValidator v in
      match err with
      | Some e =>
          Each_loop elementValidator (S i) rest
            (errs ++ [fmt_Errorf_w ("index " +:+ fmt_d i +:+ ": ") (Some e)])
      | None => Each_loop elementValidator (S i) rest errs
      end
  end.

(** [func Each[T any](elementValidator Validator[T]) Validator[[]T]] *)
Definition Each (elementValidator : Validator W T) : Validator W (list T) :=
  λ values,
    call errs := Each_loop elementValidator 0 values [] in
    ret (errors_Join (Some <$> errs)).

End Collection.

(** [type MapKeyRule[V any] struct] *)
Record MapKeyRule (W V : Type) : Type := mkMapKeyRule {
  key : string;
  required : bool;
  validators : list (Validator W V)
}.
Arguments mkMapKeyRule {W V}.
Arguments key {W V}.
Arguments required {W V}.
Arguments validators {W V}.

(** [func MapKey[V any](key string, required bool, validators ...Validator[V]) MapKeyRule[V]] *)
Definition MapKey {W V} (k : string) (req : bool) (vs : list (Validator W V)) : MapKeyRule W V :=
  {| key := k; required := req; validators := vs |}.

(** A value of static type [any]: nil, or a value together with its dynamic
    type. Floating-point values are IEEE 754 data ([spec_float]); the kinds
    not named here are gathered under [any_other] with their type name. *)
Inductive any : Type :=
| any_nil
| any_string (s : string)
| any_int (n : Z)
| any_int64 (n : Z)
| any_int32 (n : Z)
| any_float64 (f : spec_float)
| any_float32 (f : spec_float)
| any_bool (b : bool)
| any_other (type_name : string).

Section Maps.
Context {W : Type}.

(** The verb [%q] of fmt on a string (strconv.Quote). *)
Variable strconv_Quote : string → string.

Section KeyedMap.
Context {V : Type}.

(** The inner loop over [rule.validators]: the first failure is returned
    as [fmt.Errorf("key %q: %w", rule.key, err)]. *)
Fixpoint key_validators (k : string) (vs : list (Validator W V)) (value : V)
  : M W (option error) :=
  match vs with
  | [] => ret None
  | validator :: rest =>
      call err := validator value in
      match err with
      | Some e => ret (Some (fmt_Errorf_w ("key " +:+ strconv_Quote k +:+ ": ") (Some e)))
      | None => key_validators k rest value
      end
  end.

(** The loop over [rules]: [inl err] when the function returned from
    inside the loop, [inr validated] when the loop ran to its end. *)
Fixpoint rules_loop (m : gmap string V) (rules : list (MapKeyRule W V))
    (validated : gmap string bool) : M W (error + gmap string bool) :=
  match rules with
  | [] => ret (inr validated)
  | rule :: rest =>
      let validated := <[key rule := true]> validated in
      match m !! key rule with
      | None =>
          if required rule
          then ret (inl (errorString ("key " +:+ strconv_Quote (key rule) +:+ " is required")))
          else rules_loop m rest validated
      | Some value =>
          call err := key_validators (key rule) (validators rule) value in
          match err with
          | Some e => ret (inl e)
          | None => rules_loop m rest validated
          end
      end
  end.

(** The loop [for key := range m] over the keys in the order [order] in
    which the runtime yields them. *)
Fixpoint extra_keys (order : list string) (validated : gmap string bool) : option error :=
  match order with
  | [] => None
  | k :: rest =>
      if negb (default false (validated !! k))
      then Some (errorString ("key " +:+ strconv_Quote k +:+ " not expected"))
      else extra_keys rest validated
  end.

(** The common body of [ValidateStringMap] and [ValidateAnyMap], which
    differ in the value type only. *)
Definition validate_map (order : list string) (m : gmap string V) (allowExtra : bool)
    (rules : list (MapKeyRule W V)) : M W (option error) :=
  call r := rules_loop m rules ∅ in
  match r with
  | inl e => ret (Some e)
  | inr validated =>
      if negb allowExtra then ret (extra_keys order validated) else ret None
  end.

End KeyedMap.

(** [func ValidateStringMap(m map[string]string, allowExtra bool, rules ...MapKeyRule[string]) error] *)
Definition ValidateStringMap (order : list string) (m : gmap string string)
    (allowExtra : bool) (rules : list (MapKeyRule W string)) : M W (option error) :=
  validate_map order m allowExtra rules.

(** [func ValidateAnyMap(m map[string]any, allowExtra bool, rules ...MapKeyRule[any]) error] *)
Definition ValidateAnyMap (order : list string) (m : gmap string any)
    (allowExtra : bool) (rules : list (MapKeyRule W any)) : M W (option error) :=
  validate_map order m allowExtra rules.

End Maps.

(** The order [order] is one in which [range m] can yield the keys of [m]:
    every key exactly once. *)
Definition range_order {V} (m : gmap string V) (order : list string) : Prop :=
  order ≡ₚ elements (dom m).

(** The conversion [int(val)] of an int64: the identity, int being 64 bits
    wide on the supported targets. *)
Definition int_of_int64 (val : Z) : Z := val.

Section Shims.
Context {W : Type}.

(** The numeric conversions of the language on floating-point values:
    [int(val)] of a float64 (truncation towards zero; the result is
    implementation-dependent when out of range), [float64(val)] of a
    float32 and [float64(val)] of an int or int64 (rounding to nearest). *)
Variable int_of_float64 : spec_float → Z.
Variable float64_of_float32 : spec_float → spec_float.
Variable float64_of_int : Z → spec_float.

(** [func StringValidator(validator Validator[string]) Validator[any]] *)
Definition StringValidator (validator : Validator W string) : Validator W any :=
  λ v,
    match v with
    | any_string str => validator str
    | _ => ret (Some (errorString "must be a string"))
    end.

(** [func IntValidator(validator Validator[int]) Validator[any]] *)
Definition IntValidator (validator : Validator W Z) : Validator W any :=
  λ v,
    match v with
    | any_int val => validator val
    | any_float64 val => validator (int_of_float64 val)
    | any_int64 val => validator (int_of_int64 val)
    | _ => ret (Some (errorString "must be a number"))
    end.

(** [func FloatValidator(validator Validator[float64]) Validator[any]] *)
Definition FloatValidator (validator : Validator W spec_float) : Validator W any :=
  λ v,
    match v with
    | any_float64 val => validator val
    | any_float32 val => validator (float64_of_float32 val)
    | any_int val => validator (float64_of_int val)
    | any_int64 val => validator (float64_of_int val)
    | _ => ret (Some (errorString "must be a number"))
    end.

(** [func BoolValidator(validator Validator[bool]) Validator[any]] *)
Definition BoolValidator (validator : Validator W bool) : Validator W any :=
  λ v,
    match v with
    | any_bool val => validator val
    | _ => ret (Some (errorString "must be a boolean"))
    end.

End Shims.

(** ** Runs in which every validator fails *)

Section AllFail.
Context {W T : Type}.

(** Every validator of the list, called in order on [value] from world
    [s], fails; [errs] are their errors in that order and the last call
    leaves the world [s']. *)
Inductive all_fail (value : T) : list (Validator W T) → W → list error → W → Prop :=
| all_fail_nil s : all_fail value [] s [] s
| all_fail_cons v vs s e s1 errs s2 :
    v value s = (Some e, s1) → all_fail value vs s1 errs s2 →
    all_fail value (v :: vs) s (e :: errs) s2.

End AllFail.

(** The error [Or] builds before handing it to [WrapError]. *)
Definition all_failed (errs : list error) : error :=
  fmt_Errorf_w "all validators failed: " (Some (joinError errs)).

(** ** Calling a validator on every element *)

Section CallEach.
Context {W T : Type}.

(** The validator is called on every element of [values], in order; the
    results are returned in that order. *)
Fixpoint call_each (elementValidator : Validator W T) (values : list T)
  : M W (list (option error)) :=
  match values with
  | [] => ret []
  | v :: rest =>
      call r := elementValidator v in
      call rs := call_each elementValidator rest in
      ret (r :: rs)
  end.

End CallEach.

(** The error [Each] records for a failure [e] of the element at index [i]:
    [fmt.Errorf("index %d: %w", i, err)]. *)
Definition index_error (i : nat) (e : error) : error :=
  fmt_Errorf_w ("index " +:+ fmt_d i +:+ ": ") (Some e).

(** The results of the calls, each failure tagged with its index. *)
Definition tag_results (from : nat) (results : list (option error)) : list (option error) :=
  imap (λ j r, index_error (from + j) <$> r) results.
Arguments tag_results : simpl never.

(** A call-recording element validator: behaves as [f] and appends the
    element it was called on to the log. *)
Definition recording {T} (f : T → option error) : Validator (list T) T :=
  λ v log, (f v, log ++ [v]).

(** ** Runs of the rule loop in which every rule is satisfied *)

Section RulesPass.
Context {W V : Type}.

(** Every rule of the list, checked in order against [m] from world [s], is
    satisfied: its key is absent and optional (no validator is called), or
    its key is present and all its validators pass on the value. *)
Inductive rules_pass (m : gmap string V) : list (MapKeyRule W V) → W → W → Prop :=
| rules_pass_nil s : rules_pass m [] s s
| rules_pass_absent rule rules s s' :
    m !! key rule = None → required rule = false →
    rules_pass m rules s s' →
    rules_pass m (rule :: rules) s s'
| rules_pass_present rule rules value s s1 s2 :
    m !! key rule = Some value → all_pass value (validators rule) s s1 →
    rules_pass m rules s1 s2 →
    rules_pass m (rule :: rules) s s2.

(** The map [validated] after the loop has gone through [rules]. *)
Definition mark_validated (rules : list (MapKeyRule W V)) (validated : gmap string bool)
  : gmap string bool :=
  foldl (λ acc rule, <[key rule := true]> acc) validated rules.

End RulesPass.

(** The contextual errors of the map validators. *)
Definition required_error (q : string → string) (k : string) : error :=
  errorString ("key " +:+ q k +:+ " is required").

Definition key_error (q : string → string) (k : string) (e : error) : error :=
  fmt_Errorf_w ("key " +:+ q k +:+ ": ") (Some e).

Definition not_expected_error (q : string → string) (k : string) : error :=
  errorString ("key " +:+ q k +:+ " not expected").

(** strconv.Quote on a string of printable ASCII characters other than the
    double quote and the backslash: the string between double quotes. *)
Definition quote_plain (s : string) : string :=
  String (ascii_of_nat 34) (s +:+ String (ascii_of_nat 34) EmptyString).

(** ** The words of the spec on narrowing *)

(** The integer a floating-point value denotes, when it denotes one. *)
Definition whole_float (f : spec_float) : option Z :=
  match f with
  | S754_zero _ => Some 0%Z
  | S754_finite sign mant e =>
      let signed (n : Z) : Z := if sign then (- n)%Z else n in
      if (0 <=? e)%Z then Some (signed (Z.pos mant * 2 ^ e)%Z)
      else if (Z.pos mant mod 2 ^ (- e) =? 0)%Z
           then Some (signed (Z.pos mant / 2 ^ (- e))%Z)
           else None
  | _ => None
  end.

(** Section 4.5 in its own words, for the integer target: the value the
    runtime representation narrows to without loss, if there is one: an
    integer of any width, or a whole-valued floating-point number. *)
Definition narrows_to_int (v : any) : option Z :=
  match v with
  | any_int n | any_int64 n | any_int32 n => Some n
  | any_float64 f | any_float32 f => whole_float f
  | _ => None
  end.

(** [int(val)] of a finite float64 within the range of int: truncation
    towards zero. For NaN and the infinities, where the language leaves the
    result to the implementation, the value amd64 produces. *)
Definition trunc_float64 (f : spec_float) : Z :=
  match f with
  | S754_zero _ => 0%Z
  | S754_finite sign mant e =>
      let mag := if (0 <=? e)%Z then (Z.pos mant * 2 ^ e)%Z
                 else (Z.pos mant / 2 ^ (- e))%Z in
      if sign then (- mag)%Z else mag
  | _ => (- 2 ^ 63)%Z
  end.

(** ** Validators used in the examples *)

(** A validator that ignores its input and fails with [errors.New(msg)]. *)
Definition fails_with {T} (msg : string) : Validator unit T :=
  pure_validator (λ _, Some (errors_New msg)).

(** A validator that accepts every input. *)
Definition passes {T} : Validator unit T := pure_validator (λ _, None).

(** ** collection.go: membership and size validators *)

(** The verbs [%d] and [%v] of fmt on an int. *)
Definition fmt_d_int (n : Z) : string := NilZero.string_of_int (Z.to_int n).

Module Membership.
Section Membership.
Context {W T : Type} `{EqDecision T}.

(** [fmt.Sprint] on a value of type [T], [strings.ToLower], and the verb
    [%v] of fmt on a slice of [T]. *)
Variable fmt_Sprint : T → string.
Variable strings_ToLower : string → string.
Variable fmt_v : list T → string.

(** [slices.Contains(s, v)] *)
Definition slices_Contains (s : list T) (v : T) : bool :=
  existsb (λ a, bool_decide (a = v)) s.

(** The loop of the case-insensitive branches: some item of the list
    prints, in lower case, as [vs]. *)
Fixpoint lowered_match (vs : string) (items : list T) : bool :=
  match items with
  | [] => false
  | a :: rest =>
      if String.eqb (strings_ToLower (fmt_Sprint a)) vs then true
      else lowered_match vs rest
  end.

(** [func In[T comparable](caseInsensitive bool, allowed ...T) Validator[T]] *)
Definition In (caseInsensitive : bool) (allowed : list T) : Validator W T :=
  λ v,
    if caseInsensitive then
      if lowered_match (strings_ToLower (fmt_Sprint v)) allowed then ret None
      else ret (Some (errorString ("must be one of: " +:+ fmt_v allowed)))
    else if slices_Contains allowed v then ret None
    else ret (Some (errorString ("must be one of: " +:+ fmt_v allowed))).


(** [func NotIn[T comparable](caseInsensitive bool, forbidden ...T) Validator[T]] *)
Definition NotIn (caseInsensitive : bool) (forbidden : list T) : Validator W T :=
  λ v,
    if caseInsensitive then
      if lowered_match (strings_ToLower (fmt_Sprint v)) forbidden
      then ret (Some (errorString ("cannot be one of: " +:+ fmt_v forbidden)))
      else ret None
    else if slices_Contains forbidden v
    then ret (Some (errorString ("cannot be one of: " +:+ fmt_v forbidden)))
    else ret None.

End Membership.
End Membership.

Section SliceSizes.
Context {W T : Type}.

(** [func NotEmpty[T any]() Validator[[]T]] *)
Definition NotEmpty : Validator W (list T) :=
  λ values,
    if Nat.eqb (length values) 0 then ret (Some (errorString "cannot be empty"))
    else ret None.

(** [func MinItems[T any](minimum int) Validator[[]T]] *)
Definition MinItems (minimum : Z) : Validator W (list T) :=
  λ values,
    if (Z.of_nat (length values) <? minimum)%Z
    then ret (Some (errorString ("must have at least " +:+ fmt_d_int minimum +:+ " items")))
    else ret None.

(** [func MaxItems[T any](maximum int) Validator[[]T]] *)
Definition MaxItems (maximum : Z) : Validator W (list T) :=
  λ values,
    if (Z.of_nat (length values) >? maximum)%Z
    then ret (Some (errorString ("must have at most " +:+ fmt_d_int maximum +:+ " items")))
    else ret None.

End SliceSizes.

Section Unique.
Context {W T : Type} `{Countable T}.

(** The verb [%v] of fmt on a value of type [T]. *)
Variable fmt_v : T → string.



End Unique.

(** ** Optional (pointer) fields: a [*T] is nil or points to a value *)

Section Pointers.
Context {W T : Type}.

(** [func NilOr[T any](validator Validator[T]) Validator[*T]] *)
Definition NilOr (validator : Validator W T) : Validator W (option T) :=
  λ v,
    match v with
    | None => ret None
    | Some x => validator x
    end.

(** [func NotNil[T any]() Validator[*T]] *)
Definition NotNil : Validator W (option T) :=
  λ v,
    match v with
    | None => ret (Some (errorString "cannot be nil"))
    | Some _ => ret None
    end.

(** [func OptionalWith[T any](validators ...Validator[T]) Validator[*T]] *)
Definition OptionalWith (validators : list (Validator W T)) : Validator W (option T) :=
  λ v,
    match v with
    | None => ret None
    | Some x => Validate x validators
    end.

End Pointers.

(** [func NilOrNotEmpty() Validator[*string]] *)
Definition NilOrNotEmpty {W} : Validator W (option string) :=
  λ v,
    match v with
    | None => ret None
    | Some x =>
        if String.eqb x ""
        then ret (Some (errorString "cannot be empty string (must be nil or non-empty)"))
        else ret None
    end.

(** ** Required values *)

Section RequiredValues.
Context {W T : Type} `{EqDecision T}.

(** The zero value of the type [T] ([var zero T]). *)
Variable zero : T.

(** [func Required[T comparable]() Validator[T]] *)
Definition Required : Validator W T :=
  λ v, if bool_decide (v = zero) then ret (Some (errorString "required")) else ret None.

(** [func RequiredIf[T comparable](condition bool) Validator[T]] *)
Definition RequiredIf (condition : bool) : Validator W T :=
  λ v,
    if negb condition then ret None
    else if bool_decide (v = zero) then ret (Some (errorString "required"))
    else ret None.

End RequiredValues.

(** ** numeric.go, at an integer type *)

(** What a call does: it returns, or it panics. *)
Inductive outcome (A : Type) : Type :=
| panics (reason : string)
| returns (a : A).
Arguments panics {A}.
Arguments returns {A}.

Section Numeric.
Context {W : Type}.

(** [func Min[T constraints.Ordered](minimum T) Validator[T]] *)
Definition Min (minimum : Z) : Validator W Z :=
  λ v,
    if (v <? minimum)%Z
    then ret (Some (errorString ("must be at least " +:+ fmt_d_int minimum)))
    else ret None.

(** [func Max[T constraints.Ordered](maximum T) Validator[T]] *)
Definition Max (maximum : Z) : Validator W Z :=
  λ v,
    if (v >? maximum)%Z
    then ret (Some (errorString ("must be at most " +:+ fmt_d_int maximum)))
    else ret None.

(** [func Range[T constraints.Ordered](minimum, maximum T) Validator[T]] *)
Definition Range (minimum maximum : Z) : Validator W Z :=
  λ v,
    if (v <? minimum)%Z || (v >? maximum)%Z
    then ret (Some (errorString ("must be between " +:+ fmt_d_int minimum
                                   +:+ " and " +:+ fmt_d_int maximum)))
    else ret None.

(** [func GreaterThan[T constraints.Ordered](threshold T) Validator[T]] *)
Definition GreaterThan (threshold : Z) : Validator W Z :=
  λ v,
    if (v <=? threshold)%Z
    then ret (Some (errorString ("must be greater than " +:+ fmt_d_int threshold)))
    else ret None.

(** [func LessThan[T constraints.Ordered](threshold T) Validator[T]] *)
Definition LessThan (threshold : Z) : Validator W Z :=
  λ v,
    if (v >=? threshold)%Z
    then ret (Some (errorString ("must be less than " +:+ fmt_d_int threshold)))
    else ret None.

(** [func Positive[T constraints.Ordered]() Validator[T]] *)
Definition Positive : Validator W Z :=
  λ v, if (v <=? 0)%Z then ret (Some (errorString "must be positive")) else ret None.

(** [func NonNegative[T constraints.Ordered]() Validator[T]] *)
Definition NonNegative : Validator W Z :=
  λ v, if (v <? 0)%Z then ret (Some (errorString "must be non-negative")) else ret None.

(** [func Negative[T constraints.Ordered]() Validator[T]] *)
Definition Negative : Validator W Z :=
  λ v, if (v >=? 0)%Z then ret (Some (errorString "must be negative")) else ret None.

End Numeric.

(** [func MultipleOf[T constraints.Integer](divisor T) Validator[T]]: the
    remainder [v % divisor] truncates towards zero, and panics when the
    divisor is zero. *)
Definition MultipleOf (divisor : Z) (v : Z) : outcome (option error) :=
  if (divisor =? 0)%Z then panics "runtime error: integer divide by zero"
  else if negb (Z.rem v divisor =? 0)%Z
       then returns (Some (errorString ("must be a multiple of " +:+ fmt_d_int divisor)))
       else returns None.

(** ** String lengths ([len] counts bytes) *)

Section StringLengths.
Context {W : Type}.

(** [func MinLength(minimum int) Validator[string]] *)
Definition MinLength (minimum : Z) : Validator W string :=
  λ v,
    if (Z.of_nat (String.length v) <? minimum)%Z
    then ret (Some (NewValidationError
                      ("must be at least " +:+ fmt_d_int minimum +:+ " characters")))
    else ret None.

(** [func MaxLength(maximum int) Validator[string]] *)
Definition MaxLength (maximum : Z) : Validator W string :=
  λ v,
    if (Z.of_nat (String.length v) >? maximum)%Z
    then ret (Some (NewValidationError
                      ("must be at most " +:+ fmt_d_int maximum +:+ " characters")))
    else ret None.

(** [func Length(minimum, maximum int) Validator[string]] *)
Definition Length (minimum maximum : Z) : Validator W string :=
  λ v,
    let length := Z.of_nat (String.length v) in
    if (length <? minimum)%Z || (length >? maximum)%Z
    then ret (Some (NewValidationError
                      ("must be between " +:+ fmt_d_int minimum +:+ " and "
                         +:+ fmt_d_int maximum +:+ " characters")))
    else ret None.

End StringLengths.

(** * Properties *)

(** ** The state monad *)

Lemma bind_run {W A B} (m : M W A) (k : A → M W B) s a s' :
  m s = (a, s') → bind m k s = k a s'.
Proof. intros Hm. unfold bind. by rewrite Hm. Qed.

Ltac run_call H := rewrite (bind_run _ _ _ _ _ H); simpl.

(** ** The sequential runner *)

Section RunnerFacts.
Context {W T : Type}.
Implicit Types (value : T) (vs pre post : list (Validator W T)) (s : W).

Lemma Validate_all_pass value vs s s' :
  all_pass value vs s s' → Validate value vs s = (None, s').
Proof.
  induction 1 as [|v vs s s1 s2 Hv _ IH]; [done|].
  simpl. by run_call Hv.
Qed.

Lemma Validate_None_inv value vs s s' :
  Validate value vs s = (None, s') → all_pass value vs s s'.
Proof.
  revert s. induction vs as [|v vs IH]; intros s; simpl.
  - intros [= <-]. constructor.
  - destruct (v value s) as [[e|] s1] eqn:Hv; run_call Hv; [done|].
    intros Hrest. econstructor; eauto.
Qed.

Lemma Validate_stops value pre v post s s1 s2 e :
  all_pass value pre s s1 → v value s1 = (Some e, s2) →
  Validate value (pre ++ v :: post) s = (Some e, s2).
Proof.
  induction 1 as [|v0 vs0 s0 s1 s1' Hv0 _ IH]; intros Hv; simpl.
  - by run_call Hv.
  - run_call Hv0. by apply IH.
Qed.

(** A failing run breaks down at one validator: those before it passed. *)
Lemma Validate_Some_inv value vs s s2 e :
  Validate value vs s = (Some e, s2) →
  ∃ pre v post s1,
    vs = pre ++ v :: post ∧ all_pass value pre s s1 ∧ v value s1 = (Some e, s2).
Proof.
  revert s. induction vs as [|v vs IH]; intros s; simpl; [done|].
  destruct (v value s) as [[e'|] s1] eqn:Hv; run_call Hv.
  - intros [= -> ->]. exists [], v, vs, s. split_and!; [done|constructor|done].
  - intros (pre & v' & post & s1' & -> & Hpre & Hv')%IH.
    exists (v :: pre), v', post, s1'. split_and!; [done| |done].
    econstructor; eauto.
Qed.

End RunnerFacts.

(** Recording validators: the log after [Validate] lists, in order, the
    validators up to and including the first that fails, or all of them. *)
Lemma Validate_probes {T} (value : T) (fs : list (T → option error)) from log :
  Validate value (imap (λ i, probe (from + i)) fs) log
  = match list_find (λ f, is_Some (f value)) fs with
    | Some (i, f) => (f value, log ++ seq from (S i))
    | None => (None, log ++ seq from (length fs))
    end.
Proof.
  revert from log. induction fs as [|f fs IH]; intros from log.
  - simpl. by rewrite app_nil_r.
  - rewrite imap_cons. cbn [Validate list_find]. unfold bind at 1.
    unfold probe at 1. rewrite Nat.add_0_r.
    rewrite (imap_ext _ (λ i, probe (S from + i))); last first.
    { intros i x _. simpl. by rewrite Nat.add_succ_r. }
    destruct (f value) as [e|] eqn:Hf.
    + rewrite decide_True by eauto. by rewrite Hf.
    + rewrite decide_False by (intros [? ?]; congruence).
      rewrite IH. destruct (list_find _ fs) as [[i g]|]; simpl;
        by rewrite <- app_assoc.
Qed.

(** C1. [Validate] calls the validators in the order given. When the
    validators of a prefix pass and the next one fails, its error is the
    result and the world is the one that validator left, whatever follows
    it in the list: no later validator is called. A failing run always has
    this shape. The result is nil exactly when every validator, called in
    turn, passes. With validators that record their calls, the log is the
    indices 0, 1, ... up to the first failing validator, or all indices. *)
Theorem Validate_first_failure_short_circuit {W T} (value : T)
    (vs : list (Validator W T)) (s : W) :
  (∀ pre v post s1 s2 e,
      vs = pre ++ v :: post → all_pass value pre s s1 → v value s1 = (Some e, s2) →
      Validate value vs s = (Some e, s2))
  ∧ (∀ e s2, Validate value vs s = (Some e, s2) →
      ∃ pre v post s1,
        vs = pre ++ v :: post ∧ all_pass value pre s s1 ∧ v value s1 = (Some e, s2))
  ∧ (∀ s', Validate value vs s = (None, s') ↔ all_pass value vs s s')
  ∧ ((Validate value vs s).1 = None ↔ ∃ s', all_pass value vs s s')
  ∧ (∀ fs : list (T → option error),
      Validate value (imap probe fs) []
      = match list_find (λ f, is_Some (f value)) fs with
        | Some (i, f) => (f value, seq 0 (S i))
        | None => (None, seq 0 (length fs))
        end).
Proof.
  split_and!; [| | | |intros fs; apply (Validate_probes value fs 0 [])].
  - intros pre v post s1 s2 e -> Hpre Hv. by eapply Validate_stops.
  - intros e s2. apply Validate_Some_inv.
  - intros s'. split; [apply Validate_None_inv | apply Validate_all_pass].
  - split.
    + destruct (Validate value vs s) as [r s'] eqn:Hrun. simpl. intros ->.
      exists s'. by apply Validate_None_inv.
    + intros [s' Hs']. by rewrite (Validate_all_pass _ _ _ _ Hs').
Qed.

(** Three call-recording validators; the second one fails. The result is its
    error and the log shows calls 0 and 1 only. *)
Lemma Validate_first_failure_short_circuit_witness :
  Validate 7%Z
    [probe 0 (λ _ : Z, None);
     probe 1 (λ _ : Z, Some (errorString "required"));
     probe 2 (λ _ : Z, Some (errorString "late"))] []
  = (Some (errorString "required"), [0; 1]).
Proof.
  refine (proj1 (Validate_first_failure_short_circuit (W:=list nat) 7%Z _ [])
            [probe 0 (λ _ : Z, None)] (probe 1 (λ _ : Z, Some (errorString "required")))
            [probe 2 (λ _ : Z, Some (errorString "late"))] [0] [0; 1]
            (errorString "required") _ _ _).
  - reflexivity.
  - eapply all_pass_cons; [reflexivity | apply all_pass_nil].
  - reflexivity.
Defined.

(** ** The error model *)

Lemma omap_id_Some (errs : list error) : omap (M:=list) id (Some <$> errs) = errs.
Proof. induction errs as [|e errs IH]; [done|]. csimpl. by rewrite IH. Qed.

Lemma errors_Join_Some (errs : list error) :
  errs ≠ [] → errors_Join (Some <$> errs) = Some (joinError errs).
Proof.
  intros Hne. unfold errors_Join. rewrite omap_id_Some. by destruct errs.
Qed.

Lemma errors_Join_nil : errors_Join [] = None.
Proof. reflexivity. Qed.

Lemma WrapError_nil : WrapError None = None.
Proof. reflexivity. Qed.

Lemma WrapError_validation e :
  is_validation e = true → WrapError (Some e) = Some e.
Proof. intros H. unfold WrapError. simpl. by rewrite H. Qed.

Lemma WrapError_foreign e :
  is_validation e = false →
  WrapError (Some e) = Some (validationError (Error e) (Some e)).
Proof. intros H. unfold WrapError. simpl. by rewrite H. Qed.

Lemma WrapError_is_validation e r :
  WrapError (Some e) = Some r → is_validation r = true.
Proof.
  unfold WrapError. simpl. destruct (is_validation e) eqn:He; intros [= <-]; done.
Qed.

Lemma WrapError_message e r :
  WrapError (Some e) = Some r → Error r = Error e.
Proof.
  unfold WrapError. simpl. destruct (is_validation e); intros [= <-]; done.
Qed.

Lemma WrapError_is_Some e : is_Some (WrapError (Some e)).
Proof. unfold WrapError. simpl. destruct (is_validation e); eauto. Qed.

(** ** Or *)

Section OrFacts.
Context {W T : Type}.
Implicit Types (value : T) (vs pre post : list (Validator W T)) (s : W).

Lemma all_fail_length value vs s errs s' :
  all_fail value vs s errs s' → length errs = length vs.
Proof. induction 1; simpl; congruence. Qed.

Lemma Or_loop_all_fail value vs s errs s' acc :
  all_fail value vs s errs s' →
  Or_loop vs value acc s = (inr (acc ++ errs), s').
Proof.
  intros H. revert acc.
  induction H as [|v vs s e s1 errs s2 Hv _ IH]; intros acc; simpl.
  - by rewrite app_nil_r.
  - run_call Hv. rewrite IH. by rewrite <- app_assoc.
Qed.

Lemma Or_loop_first_pass value pre v post s errs s1 s2 acc :
  all_fail value pre s errs s1 → v value s1 = (None, s2) →
  Or_loop (pre ++ v :: post) value acc s = (inl tt, s2).
Proof.
  intros H Hv. revert acc.
  induction H as [|v0 vs0 s0 e s1 errs s1' Hv0 _ IH]; intros acc; simpl.
  - by run_call Hv.
  - run_call Hv0. by apply IH.
Qed.

Lemma Or_all_fail value vs s errs s' :
  all_fail value vs s errs s' →
  Or vs value s =
    (if Nat.eqb (length errs) 1 then errs !! 0
     else WrapError (Some (fmt_Errorf_w "all validators failed: "
                             (errors_Join (Some <$> errs)))), s').
Proof.
  intros H. unfold Or.
  rewrite (bind_run _ _ _ _ _ (Or_loop_all_fail _ _ _ _ _ [] H)). simpl.
  by destruct (Nat.eqb (length errs) 1).
Qed.

Lemma Or_first_pass value pre v post s errs s1 s2 :
  all_fail value pre s errs s1 → v value s1 = (None, s2) →
  Or (pre ++ v :: post) value s = (None, s2).
Proof.
  intros H Hv. unfold Or.
  by rewrite (bind_run _ _ _ _ _ (Or_loop_first_pass _ _ _ post _ _ _ _ [] H Hv)).
Qed.

Lemma Or_several_fail value vs s errs s' :
  2 ≤ length vs → all_fail value vs s errs s' →
  Or vs value s = (WrapError (Some (all_failed errs)), s').
Proof.
  intros Hlen H. rewrite (Or_all_fail _ _ _ _ _ H).
  pose proof (all_fail_length _ _ _ _ _ H) as Hl.
  assert (Nat.eqb (length errs) 1 = false) as -> by (apply Nat.eqb_neq; lia).
  rewrite errors_Join_Some; [done|].
  intros ->. simpl in Hl. lia.
Qed.

End OrFacts.

(** C2, as amended. With a single validator that fails, [Or] returns its
    error unchanged. With two or more validators that all fail, [Or] returns
    an error whose message is "all validators failed: " followed by the
    messages of all failures in input order, one per line; the join of the
    failures is the cause of the error fmt.Errorf built, and that error is
    either the result itself (when some failure already is a validation
    error) or the cause of the result (otherwise). [Or] returns nil at the
    first validator that passes, and calls none after it. *)
Theorem Or_failure_shape {W T} (value : T) (vs : list (Validator W T)) (s : W) :
  (∀ v e s', vs = [v] → v value s = (Some e, s') → Or vs value s = (Some e, s'))
  ∧ (∀ errs s', 2 ≤ length vs → all_fail value vs s errs s' →
      ∃ r, Or vs value s = (Some r, s')
        ∧ Error r = "all validators failed: " +:+ String.concat newline (List.map Error errs)
        ∧ Unwrap (Some (all_failed errs)) = Some (joinError errs)
        ∧ (existsb is_validation errs = true → r = all_failed errs)
        ∧ (existsb is_validation errs = false →
             Unwrap (Some r) = Some (all_failed errs)
             ∧ Unwrap_n 2 (Some r) = Some (joinError errs)))
  ∧ (∀ pre v post errs s1 s2,
      vs = pre ++ v :: post → all_fail value pre s errs s1 → v value s1 = (None, s2) →
      Or vs value s = (None, s2)).
Proof.
  split_and!.
  - intros v e s' -> Hv.
    rewrite (Or_all_fail value [v] s [e] s'); [done|].
    econstructor; [done|constructor].
  - intros errs s' Hlen Hfail.
    rewrite (Or_several_fail _ _ _ _ _ Hlen Hfail).
    destruct (existsb is_validation errs) eqn:Hv.
    + exists (all_failed errs). rewrite WrapError_validation by done.
      split_and!; done.
    + exists (validationError (Error (all_failed errs)) (Some (all_failed errs))).
      rewrite WrapError_foreign by done. split_and!; done.
  - intros pre v post errs s1 s2 -> Hfail Hv. by eapply Or_first_pass.
Qed.

(** Two validators that fail with validation errors: the result is the error
    fmt.Errorf built and its cause is the join of both failures. *)
Lemma Or_failure_shape_witness :
  ∃ r, Or [pure_validator (λ _ : Z, Some (NewValidationError "too short"));
           pure_validator (λ _ : Z, Some (NewValidationError "too long"))] 4%Z tt
       = (Some r, tt)
     ∧ Unwrap (Some r)
       = Some (joinError [NewValidationError "too short"; NewValidationError "too long"]).
Proof.
  destruct (Or_failure_shape (W:=unit) 4%Z
              [pure_validator (λ _ : Z, Some (NewValidationError "too short"));
               pure_validator (λ _ : Z, Some (NewValidationError "too long"))] tt)
    as (_ & Hall & _).
  destruct (Hall [NewValidationError "too short"; NewValidationError "too long"] tt)
    as (r & Hr & _ & Hcause & Hval & _).
  - simpl. lia.
  - eapply all_fail_cons; [reflexivity|].
    eapply all_fail_cons; [reflexivity|]. apply all_fail_nil.
  - exists r. split; [exact Hr|]. rewrite (Hval eq_refl). exact Hcause.
Defined.

(** C2 as stated fails: two validators fail with errors that are not
    validation errors; the cause of the result is the error fmt.Errorf
    built, not the join of the two failures. *)
Lemma Or_cause_is_not_the_join :
  all_fail 4%Z [fails_with "a"; fails_with "b"] tt [errorString "a"; errorString "b"] tt
  ∧ Unwrap (Or [fails_with "a"; fails_with "b"] 4%Z tt).1
    = Some (all_failed [errorString "a"; errorString "b"])
  ∧ Unwrap (Or [fails_with "a"; fails_with "b"] 4%Z tt).1
    ≠ Some (joinError [errorString "a"; errorString "b"]).
Proof.
  split_and!.
  - eapply all_fail_cons; [reflexivity|].
    eapply all_fail_cons; [reflexivity|]. apply all_fail_nil.
  - reflexivity.
  - vm_compute. discriminate.
Qed.

(** C8. [Or] of no validators fails on every input: the loop collects
    nothing, the join of nothing is nil, and fmt.Errorf still builds an
    error, which [WrapError] turns into a validation error. *)
Theorem Or_no_validators_fails {W T} (value : T) (s : W) :
  ∃ e, Or [] value s = (Some e, s)
     ∧ Error e = "all validators failed: %!w(<nil>)"
     ∧ (Or [] value s).1 ≠ None.
Proof.
  eexists. split_and!; [reflexivity|reflexivity|discriminate].
Qed.

(** C9. [Not (Not v)] passes exactly when [v] passes; [v] is called once,
    so the world is left as [v] leaves it. *)
Theorem Not_Not_same_outcome {W T} (validator : Validator W T) (value : T) (s : W) :
  ((Not (Not validator) value s).1 = None ↔ (validator value s).1 = None)
  ∧ (Not (Not validator) value s).2 = (validator value s).2.
Proof.
  unfold Not, bind, ret.
  destruct (validator value s) as [[e|] s']; simpl; split; done.
Qed.

(** C10. When the wrapped validator fails, [WithMessage] returns
    [NewValidationError(message)]: the message is the custom one, the error
    has no cause, and no number of unwrapping steps yields anything, so the
    original error cannot be reached from it. *)
Theorem WithMessage_discards_original {W T} (validator : Validator W T)
    (message : string) (value : T) (s s' : W) (e : error) :
  validator value s = (Some e, s') →
  WithMessage validator message value s = (Some (NewValidationError message), s')
  ∧ Error (NewValidationError message) = message
  ∧ Unwrap (Some (NewValidationError message)) = None
  ∧ ∀ n, Unwrap_n (S n) (Some (NewValidationError message)) = None.
Proof.
  intros Hv. split_and!; try reflexivity.
  - unfold WithMessage. by run_call Hv.
  - intros n. simpl. induction n as [|n IH]; [done|]. exact IH.
Qed.

Lemma WithMessage_discards_original_witness :
  WithMessage (fails_with "required") "count cannot be zero" 0%Z tt
  = (Some (NewValidationError "count cannot be zero"), tt).
Proof.
  exact (proj1 (WithMessage_discards_original (fails_with "required")
                  "count cannot be zero" 0%Z tt tt (errorString "required") eq_refl)).
Defined.

(** ** Each *)

Lemma append_assoc (a b c : string) : (a +:+ b) +:+ c = a +:+ b +:+ c.
Proof.
  induction a as [|x a IH]; [reflexivity|].
  change (String x ((a +:+ b) +:+ c) = String x (a +:+ b +:+ c)).
  by rewrite IH.
Qed.

Lemma index_error_message i e :
  Error (index_error i e) = "index " +:+ fmt_d i +:+ ": " +:+ Error e.
Proof.
  unfold index_error, fmt_Errorf_w. cbn [Error].
  by rewrite !append_assoc.
Qed.

Lemma index_error_cause i e : Unwrap (Some (index_error i e)) = Some e.
Proof. reflexivity. Qed.

Section EachFacts.
Context {W T : Type}.
Implicit Types (ev : Validator W T) (values : list T) (s : W).

Lemma tag_results_cons from r results :
  tag_results from (r :: results)
  = (index_error from <$> r) :: tag_results (S from) results.
Proof.
  unfold tag_results. rewrite imap_cons. f_equal.
  - by rewrite Nat.add_0_r.
  - apply imap_ext. intros j x _. simpl. by rewrite Nat.add_succ_r.
Qed.

Lemma call_each_length ev values s :
  length (call_each ev values s).1 = length values.
Proof.
  revert s. induction values as [|v values IH]; intros s; [done|].
  simpl. unfold bind, ret. destruct (ev v s) as [r s1].
  specialize (IH s1).
  destruct (call_each ev values s1) as [rs s2]. simpl in *. by rewrite IH.
Qed.

Lemma Each_loop_call_each ev values from acc s :
  Each_loop ev from values acc s
  = (acc ++ omap id (tag_results from (call_each ev values s).1),
     (call_each ev values s).2).
Proof.
  revert from acc s. induction values as [|v values IH]; intros from acc s.
  - simpl. by rewrite app_nil_r.
  - simpl. unfold bind, ret.
    destruct (ev v s) as [[e|] s1]; rewrite IH;
      destruct (call_each ev values s1) as [rs s2]; cbn [fst snd];
      rewrite tag_results_cons; csimpl; [|done].
    by rewrite <- app_assoc.
Qed.

Lemma errors_Join_omap (rs : list (option error)) :
  errors_Join (Some <$> omap id rs) = errors_Join rs.
Proof.
  unfold errors_Join. by rewrite omap_id_Some.
Qed.

Lemma Each_call_each ev values s :
  Each ev values s
  = (errors_Join (tag_results 0 (call_each ev values s).1),
     (call_each ev values s).2).
Proof.
  unfold Each, bind. rewrite Each_loop_call_each. simpl.
  by rewrite errors_Join_omap.
Qed.

Lemma errors_Join_None (rs : list (option error)) :
  errors_Join rs = None ↔ Forall (λ r, r = None) rs.
Proof.
  unfold errors_Join. split.
  - induction rs as [|[e|] rs IH]; csimpl; [constructor|done|].
    intros H. constructor; [done|by apply IH].
  - induction 1 as [|r rs -> _ IH]; [done|]. by csimpl.
Qed.

Lemma errors_Join_elem (rs : list (option error)) e :
  Some e ∈ rs → ∃ errs, errors_Join rs = Some (joinError errs) ∧ e ∈ errs.
Proof.
  intros Hin. unfold errors_Join.
  assert (e ∈ omap id rs) as He.
  { apply list_elem_of_omap. by exists (Some e). }
  destruct (omap id rs) as [|e0 es] eqn:Hes.
  - by apply elem_of_nil in He.
  - by exists (e0 :: es).
Qed.

Lemma tag_results_None from rs :
  Forall (λ r, r = None) (tag_results from rs) ↔ Forall (λ r, r = None) rs.
Proof.
  revert from. induction rs as [|r rs IH]; intros from.
  - done.
  - rewrite tag_results_cons, !Forall_cons, IH.
    destruct r; simpl; split; intros [? ?]; done.
Qed.

Lemma tag_results_lookup from rs i e :
  rs !! i = Some (Some e) →
  tag_results from rs !! i = Some (Some (index_error (from + i) e)).
Proof.
  intros H. unfold tag_results. rewrite list_lookup_imap, H. done.
Qed.

End EachFacts.

Lemma call_each_recording {T} (f : T → option error) (values : list T) log :
  call_each (recording f) values log = (f <$> values, log ++ values).
Proof.
  revert log. induction values as [|v values IH]; intros log; simpl.
  - by rewrite app_nil_r.
  - unfold bind, ret. unfold recording at 1. rewrite IH.
    csimpl. by rewrite <- app_assoc.
Qed.

(** C4. [Each] calls the element validator on every element, in order,
    whatever the earlier calls returned: the result and the world are those
    of calling it on all elements. The result is the join of the failures,
    each wrapped with the zero-based index of its element; it is nil exactly
    when every call passes (the join of no error is nil), and a failure at
    index [i] is a member of the join under the message "index i: ...". A
    recording validator shows the calls: its log is the whole sequence. *)
Theorem Each_collects_all_failures {W T} (elementValidator : Validator W T)
    (values : list T) (s : W) :
  Each elementValidator values s
  = (errors_Join (tag_results 0 (call_each elementValidator values s).1),
     (call_each elementValidator values s).2)
  ∧ length (call_each elementValidator values s).1 = length values
  ∧ ((Each elementValidator values s).1 = None
     ↔ Forall (λ r, r = None) (call_each elementValidator values s).1)
  ∧ (∀ i e, (call_each elementValidator values s).1 !! i = Some (Some e) →
       ∃ errs tagged,
         (Each elementValidator values s).1 = Some (joinError errs)
         ∧ tagged ∈ errs
         ∧ Error tagged = "index " +:+ fmt_d i +:+ ": " +:+ Error e
         ∧ Unwrap (Some tagged) = Some e)
  ∧ (∀ (f : T → option error) (xs : list T),
       Each (recording f) xs [] = (errors_Join (tag_results 0 (f <$> xs)), xs))
  ∧ errors_Join [] = None.
Proof.
  split_and!.
  - apply Each_call_each.
  - apply call_each_length.
  - rewrite Each_call_each. simpl. by rewrite errors_Join_None, tag_results_None.
  - intros i e Hi. rewrite Each_call_each. cbn [fst].
    destruct (errors_Join_elem
                (tag_results 0 (call_each elementValidator values s).1)
                (index_error i e)) as (errs & Herrs & Hin).
    { apply list_elem_of_lookup. exists i.
      by rewrite (tag_results_lookup 0 _ i e Hi). }
    exists errs, (index_error i e).
    split_and!; [done|done|apply index_error_message|done].
  - intros f xs. rewrite Each_call_each, call_each_recording. done.
  - reflexivity.
Qed.

(** The scenario of the spec: of "test", "ab", "test3" only the element at
    index 1 is shorter than three characters. *)
Lemma Each_collects_all_failures_witness :
  ∃ errs tagged,
    (Each (recording (λ x : string,
             if (String.length x <? 3)%nat
             then Some (NewValidationError "must be at least 3 characters") else None))
       ["test"; "ab"; "test3"] []).1 = Some (joinError errs)
    ∧ tagged ∈ errs
    ∧ Error tagged = "index 1: must be at least 3 characters"
    ∧ Unwrap (Some tagged) = Some (NewValidationError "must be at least 3 characters").
Proof.
  destruct (Each_collects_all_failures
              (recording (λ x : string,
                 if (String.length x <? 3)%nat
                 then Some (NewValidationError "must be at least 3 characters") else None))
              ["test"; "ab"; "test3"] []) as (_ & _ & _ & Hin & _).
  exact (Hin 1%nat (NewValidationError "must be at least 3 characters") eq_refl).
Defined.


(** ** The map validators *)

Lemma mark_validated_lookup {W V} (rules : list (MapKeyRule W V))
    (validated : gmap string bool) k :
  default false (mark_validated rules validated !! k) = true
  ↔ k ∈ (key <$> rules) ∨ default false (validated !! k) = true.
Proof.
  revert validated. induction rules as [|rule rules IH]; intros validated.
  - cbn. rewrite elem_of_nil. tauto.
  - unfold mark_validated in *. cbn [foldl]. rewrite IH, fmap_cons, elem_of_cons.
    destruct (decide (key rule = k)) as [<-|Hne].
    + rewrite lookup_insert_eq. simpl. tauto.
    + rewrite lookup_insert_ne by done. split; [tauto|].
      intros [[Heq|Hin]|Hv]; [congruence|tauto|tauto].
Qed.

Section MapFacts.
Context {W V : Type}.
Variable q : string → string.
Implicit Types (m : gmap string V) (rules pre post : list (MapKeyRule W V)) (s : W).

Lemma key_validators_Validate k (vs : list (Validator W V)) value s :
  key_validators q k vs value s
  = (key_error q k <$> (Validate value vs s).1, (Validate value vs s).2).
Proof.
  revert s. induction vs as [|v vs IH]; intros s; [done|].
  simpl. unfold bind, ret. destruct (v value s) as [[e|] s1]; [done|]. apply IH.
Qed.

Lemma rules_loop_pass m pre rest validated s s1 :
  rules_pass m pre s s1 →
  rules_loop q m (pre ++ rest) validated s
  = rules_loop q m rest (mark_validated pre validated) s1.
Proof.
  intros H. revert validated.
  induction H as [s|rule rules s s' Hk Hreq _ IH|rule rules value s s1 s2 Hk Hv _ IH];
    intros validated; [done| |].
  - simpl. rewrite Hk, Hreq. apply IH.
  - simpl. rewrite Hk. unfold bind. rewrite key_validators_Validate.
    rewrite (Validate_all_pass _ _ _ _ Hv). simpl. apply IH.
Qed.

Lemma rules_loop_all_pass m rules validated s s' :
  rules_pass m rules s s' →
  rules_loop q m rules validated s = (inr (mark_validated rules validated), s').
Proof.
  intros H. rewrite <- (app_nil_r rules) at 1.
  by rewrite (rules_loop_pass _ _ [] _ _ _ H).
Qed.

Lemma extra_keys_None order (validated : gmap string bool) :
  extra_keys q order validated = None
  ↔ ∀ k, k ∈ order → default false (validated !! k) = true.
Proof.
  induction order as [|k order IH]; simpl.
  - split; [|done]. intros _ k Hk. by apply elem_of_nil in Hk.
  - destruct (default false (validated !! k)) eqn:Hk; simpl.
    + rewrite IH. split.
      * intros H k' [->|Hin]%elem_of_cons; eauto.
      * intros H k' Hin. apply H. by right.
    + split; [done|]. intros H. specialize (H k ltac:(by left)). congruence.
Qed.

Lemma extra_keys_Some order (validated : gmap string bool) e :
  extra_keys q order validated = Some e →
  ∃ k, k ∈ order ∧ default false (validated !! k) = false
       ∧ e = not_expected_error q k.
Proof.
  induction order as [|k order IH]; simpl; [done|].
  destruct (default false (validated !! k)) eqn:Hk; simpl.
  - intros (k' & Hin & Hk' & ->)%IH. exists k'. split_and!; [by right|done|done].
  - intros [= <-]. exists k. split_and!; [by left|done|done].
Qed.

End MapFacts.

Section MapRun.
Context {W V : Type}.
Variable q : string → string.
Implicit Types (m : gmap string V) (rules pre post : list (MapKeyRule W V)) (s : W).

Lemma validate_map_required order m allowExtra pre rule post s s1 :
  rules_pass m pre s s1 → m !! key rule = None → required rule = true →
  validate_map q order m allowExtra (pre ++ rule :: post) s
  = (Some (required_error q (key rule)), s1).
Proof.
  intros Hpre Hk Hreq. unfold validate_map, bind.
  rewrite (rules_loop_pass q _ _ _ _ _ _ Hpre). simpl. by rewrite Hk, Hreq.
Qed.

Lemma validate_map_key_failure order m allowExtra pre rule post value e s s1 s2 :
  rules_pass m pre s s1 → m !! key rule = Some value →
  Validate value (validators rule) s1 = (Some e, s2) →
  validate_map q order m allowExtra (pre ++ rule :: post) s
  = (Some (key_error q (key rule) e), s2).
Proof.
  intros Hpre Hk Hv. unfold validate_map, bind.
  rewrite (rules_loop_pass q _ _ _ _ _ _ Hpre). simpl. rewrite Hk.
  unfold bind. rewrite key_validators_Validate, Hv. done.
Qed.

Lemma validate_map_rules_pass order m allowExtra rules s s' :
  rules_pass m rules s s' →
  validate_map q order m allowExtra rules s
  = (if negb allowExtra then extra_keys q order (mark_validated rules ∅) else None, s').
Proof.
  intros H. unfold validate_map, bind. rewrite (rules_loop_all_pass q _ _ _ _ _ H).
  by destruct allowExtra.
Qed.

Lemma covered_by_rules rules k :
  default false (mark_validated rules ∅ !! k) = true ↔ k ∈ (key <$> rules).
Proof.
  rewrite mark_validated_lookup, lookup_empty. simpl. split; [|by left].
  intros [?|?]; [done|discriminate].
Qed.

Lemma range_order_elem m order k : range_order m order → k ∈ order ↔ k ∈ dom m.
Proof. intros H. unfold range_order in H. by rewrite H, elem_of_elements. Qed.

End MapRun.

(** C3. The map validators ([ValidateStringMap] and [ValidateAnyMap] have the
    same body) check the rules in order and stop at the first that fails.
    When the rules before a rule are satisfied and that rule's key is absent
    and required, the result is the error "key <quoted key> is required" and
    no later rule is looked at. When its key is present and the sequential
    run of its validators on the value fails with [e], the result wraps [e]
    under the message "key <quoted key>: ..." and the world is the one the
    failing validator left. When all rules are satisfied: with extra keys
    allowed the result is nil; with extra keys disallowed it is nil if every
    key of the map is the key of some rule, and otherwise the error
    "key <quoted key> not expected" for a key of the map that no rule covers,
    whichever order the keys are ranged over. *)
Theorem map_validators_first_failure {W V} (q : string → string) (order : list string)
    (m : gmap string V) (allowExtra : bool) (rules : list (MapKeyRule W V)) (s : W) :
  (∀ pre rule post s1,
      rules = pre ++ rule :: post → rules_pass m pre s s1 →
      m !! key rule = None → required rule = true →
      validate_map q order m allowExtra rules s
      = (Some (errorString ("key " +:+ q (key rule) +:+ " is required")), s1))
  ∧ (∀ pre rule post value e s1 s2,
      rules = pre ++ rule :: post → rules_pass m pre s s1 →
      m !! key rule = Some value →
      Validate value (validators rule) s1 = (Some e, s2) →
      ∃ r, validate_map q order m allowExtra rules s = (Some r, s2)
         ∧ r = fmt_Errorf_w ("key " +:+ q (key rule) +:+ ": ") (Some e)
         ∧ Unwrap (Some r) = Some e)
  ∧ (∀ s', rules_pass m rules s s' →
      (allowExtra = true → validate_map q order m allowExtra rules s = (None, s'))
      ∧ (allowExtra = false → range_order m order →
          ((∀ k, k ∈ dom m → k ∈ (key <$> rules)) →
             validate_map q order m allowExtra rules s = (None, s'))
          ∧ ((∃ k, k ∈ dom m ∧ k ∉ (key <$> rules)) →
             ∃ k, k ∈ dom m ∧ (k ∉ (key <$> rules))
                ∧ validate_map q order m allowExtra rules s
                  = (Some (errorString ("key " +:+ q k +:+ " not expected")), s'))))
  ∧ (∀ (order' : list string) (m' : gmap string string) allow rules',
      ValidateStringMap (W:=W) q order' m' allow rules' = validate_map q order' m' allow rules')
  ∧ (∀ (order' : list string) (m' : gmap string any) allow rules',
      ValidateAnyMap (W:=W) q order' m' allow rules' = validate_map q order' m' allow rules').
Proof.
  split_and!; [| | |done|done].
  - intros pre rule post s1 -> Hpre Hk Hreq. by apply validate_map_required.
  - intros pre rule post value e s1 s2 -> Hpre Hk Hv.
    exists (key_error q (key rule) e). split_and!; [|done|done].
    by eapply validate_map_key_failure.
  - intros s' Hpass. rewrite (validate_map_rules_pass q _ _ _ _ _ _ Hpass). split.
    + by intros ->.
    + intros -> Horder. simpl. split.
      * intros Hcov. f_equal. apply extra_keys_None. intros k Hk.
        apply covered_by_rules, Hcov. by apply (range_order_elem m order).
      * intros (k0 & Hk0 & Hnot0).
        destruct (extra_keys q order (mark_validated rules ∅)) as [e|] eqn:Hextra.
        -- apply extra_keys_Some in Hextra as (k & Hin & Hk & ->).
           exists k. split_and!; [by apply (range_order_elem m order)| |done].
           intros Hcov%covered_by_rules. congruence.
        -- exfalso. apply Hnot0, covered_by_rules.
           eapply extra_keys_None; [done|]. by apply (range_order_elem m order).
Qed.

(** The scenario of the spec: the rule for "name" is required, the rule for
    "age" optional, and the map has "age" only. *)
Lemma map_validators_first_failure_witness :
  ValidateStringMap (W:=unit) quote_plain ["age"] {[ "age" := "30" ]} true
    [MapKey "name" true [passes]; MapKey "age" false [passes]] tt
  = (Some (errorString ("key " +:+ quote_plain "name" +:+ " is required")), tt).
Proof.
  refine (proj1 (map_validators_first_failure (W:=unit) quote_plain ["age"]
                   {[ "age" := "30" ]} true
                   [MapKey "name" true [passes]; MapKey "age" false [passes]] tt)
            [] (MapKey "name" true [passes]) [MapKey "age" false [passes]] tt _ _ _ _).
  - reflexivity.
  - apply rules_pass_nil.
  - reflexivity.
  - reflexivity.
Defined.

(** ** The type-adaptation shims *)

(** C5, as amended. Each shim decides on the dynamic type of the value
    alone. [StringValidator] delegates exactly on a string, [BoolValidator]
    exactly on a bool, [IntValidator] exactly on an int, a float64
    (converted by [int(val)], whole-valued or not) and an int64,
    [FloatValidator] exactly on a float64, a float32, an int and an int64.
    On nil and on every other dynamic type, other numeric types included,
    the shim returns "must be a string" / "must be a number" / "must be a
    boolean" and leaves the world untouched: the wrapped validator is not
    called. *)
Theorem shims_dispatch_on_dynamic_type {W} (int_of_float64 : spec_float → Z)
    (float64_of_float32 : spec_float → spec_float) (float64_of_int : Z → spec_float)
    (v : any) (s : W) :
  (∀ validator,
      StringValidator validator v s
      = match v with
        | any_string str => validator str s
        | _ => (Some (errorString "must be a string"), s)
        end)
  ∧ (∀ validator,
      IntValidator int_of_float64 validator v s
      = match v with
        | any_int val => validator val s
        | any_float64 val => validator (int_of_float64 val) s
        | any_int64 val => validator val s
        | _ => (Some (errorString "must be a number"), s)
        end)
  ∧ (∀ validator,
      FloatValidator float64_of_float32 float64_of_int validator v s
      = match v with
        | any_float64 val => validator val s
        | any_float32 val => validator (float64_of_float32 val) s
        | any_int val => validator (float64_of_int val) s
        | any_int64 val => validator (float64_of_int val) s
        | _ => (Some (errorString "must be a number"), s)
        end)
  ∧ (∀ validator,
      BoolValidator validator v s
      = match v with
        | any_bool val => validator val s
        | _ => (Some (errorString "must be a boolean"), s)
        end).
Proof.
  split_and!; intros validator; by destruct v.
Qed.

(** C5 as stated fails: an int32 holding 5 narrows to the int 5 without
    loss, yet [IntValidator] answers "must be a number" and does not call
    the wrapped validator (here one that would record the call). *)
Lemma IntValidator_rejects_int32 :
  narrows_to_int (any_int32 5) = Some 5%Z
  ∧ IntValidator trunc_float64 (probe 0 (λ _ : Z, None)) (any_int32 5) []
    = (Some (errorString "must be a number"), []).
Proof. split; reflexivity. Qed.

(** ** The error model *)

(** C6. [WrapError] of nil is nil. An error that is a validation error is
    returned as it is, so wrapping twice is wrapping once. Any other error
    is wrapped into a validation error with the same message, and unwrapping
    the result gives back exactly the original error. A validation error
    built from a message alone unwraps to nil. *)
Theorem WrapError_laws :
  WrapError None = None
  ∧ (∀ err, IsValidationError err = true → WrapError err = err)
  ∧ (∀ err, WrapError (WrapError err) = WrapError err)
  ∧ (∀ e, IsValidationError (Some e) = false →
       ∃ r, WrapError (Some e) = Some r
          ∧ Error r = Error e
          ∧ Unwrap (Some r) = Some e
          ∧ IsValidationError (Some r) = true)
  ∧ (∀ message,
       Unwrap (Some (NewValidationError message)) = None
       ∧ Error (NewValidationError message) = message
       ∧ IsValidationError (Some (NewValidationError message)) = true).
Proof.
  split_and!.
  - reflexivity.
  - intros [e|] H; [|done]. by apply WrapError_validation.
  - intros [e|]; [|done].
    destruct (WrapError_is_Some e) as [r Hr]. rewrite Hr.
    apply WrapError_validation. by eapply WrapError_is_validation.
  - intros e H. exists (validationError (Error e) (Some e)).
    split_and!; [by apply WrapError_foreign|done..].
  - intros message. split_and!; reflexivity.
Qed.

(** The test of the repository: wrapping errors.New("original error"). *)
Lemma WrapError_laws_witness :
  ∃ r, WrapError (Some (errors_New "original error")) = Some r
     ∧ Error r = "original error"
     ∧ Unwrap (Some r) = Some (errors_New "original error")
     ∧ IsValidationError (Some r) = true.
Proof.
  destruct WrapError_laws as (_ & _ & _ & Hforeign & _).
  exact (Hforeign (errors_New "original error") eq_refl).
Defined.

(** ** Errors that cross the map validators *)

(** What [Or] returns when two or more validators fail is a validation
    error, whatever the failures are. *)
Lemma Or_several_fail_is_validation {W T} (value : T) (vs : list (Validator W T))
    (s s' : W) errs :
  2 ≤ length vs → all_fail value vs s errs s' →
  IsValidationError (Or vs value s).1 = true.
Proof.
  intros Hlen Hfail. rewrite (Or_several_fail _ _ _ _ _ Hlen Hfail). cbn [fst].
  destruct (WrapError_is_Some (all_failed errs)) as [r Hr]. rewrite Hr.
  by eapply WrapError_is_validation.
Qed.

(** C7 on the code. A required key that is absent: [ValidateAnyMap] returns
    the fmt.Errorf error "key ... is required", which is not a validation
    error. A present key whose value is not a string, under
    [StringValidator]: the result wraps "must be a string" with fmt.Errorf
    and is not a validation error either. *)
Theorem map_errors_are_not_validation_errors (q : string → string) :
  ValidateAnyMap (W:=unit) q [] ∅ true [MapKey "name" true [StringValidator passes]] tt
  = (Some (errorString ("key " +:+ q "name" +:+ " is required")), tt)
  ∧ IsValidationError
      (ValidateAnyMap (W:=unit) q [] ∅ true
         [MapKey "name" true [StringValidator passes]] tt).1 = false
  ∧ ValidateAnyMap (W:=unit) q ["name"] {[ "name" := any_int 123 ]} true
      [MapKey "name" true [StringValidator passes]] tt
    = (Some (wrapError (("key " +:+ q "name" +:+ ": ") +:+ "must be a string")
               (errorString "must be a string")), tt)
  ∧ IsValidationError
      (ValidateAnyMap (W:=unit) q ["name"] {[ "name" := any_int 123 ]} true
         [MapKey "name" true [StringValidator passes]] tt).1 = false.
Proof.
  split_and!; reflexivity.
Qed.


(** * Further properties of the code *)

(** ** helpers.go *)

Section CombinatorFacts.
Context {W T : Type}.
Implicit Types (value : T) (vs : list (Validator W T)) (s : W).

Lemma And_Validate vs value s : And vs value s = Validate value vs s.
Proof.
  revert s. induction vs as [|v vs IH]; intros s; [done|].
  simpl. unfold bind. destruct (v value s) as [[e|] s1]; [done|]. apply IH.
Qed.

Lemma Validate_app value vs1 vs2 s :
  Validate value (vs1 ++ vs2) s
  = match Validate value vs1 s with
    | (Some e, s1) => (Some e, s1)
    | (None, s1) => Validate value vs2 s1
    end.
Proof.
  revert s. induction vs1 as [|v vs1 IH]; intros s; [done|].
  simpl. unfold bind. destruct (v value s) as [[e|] s1]; [done|]. apply IH.
Qed.

Lemma all_fail_pure (fs : list (T → option error)) value s :
  Forall (λ f, f value ≠ None) fs →
  ∃ errs, all_fail value (pure_validator <$> fs) s errs s.
Proof.
  induction 1 as [|f fs Hf _ [errs IH]].
  - exists []. constructor.
  - destruct (f value) as [e|] eqn:He; [|done].
    exists (e :: errs). econstructor; [|exact IH].
    unfold pure_validator, ret. by rewrite He.
Qed.

Lemma Or_all_fail_is_Some value vs s errs s' :
  all_fail value vs s errs s' → is_Some (Or vs value s).1.
Proof.
  intros H. rewrite (Or_all_fail _ _ _ _ _ H). cbn [fst].
  destruct (Nat.eqb (length errs) 1) eqn:Hlen.
  - apply Nat.eqb_eq in Hlen. destruct errs as [|e errs]; [done|]. by exists e.
  - apply WrapError_is_Some.
Qed.

(** The first validator that passes, and the failing ones before it. *)
Lemma first_pass_split (fs : list (T → option error)) value :
  Exists (λ f, f value = None) fs →
  ∃ pre g post,
    fs = pre ++ g :: post ∧ g value = None ∧ Forall (λ h, h value ≠ None) pre.
Proof.
  induction fs as [|h fs IH]; intros Hex; [by apply Exists_nil in Hex|].
  destruct (h value) as [e|] eqn:Hh.
  - apply Exists_cons in Hex as [Hex|Hex]; [congruence|].
    destruct (IH Hex) as (pre & g & post & -> & Hg & Hpre).
    exists (h :: pre), g, post. split_and!; [done|done|].
    constructor; [congruence|done].
  - exists [], h, fs. by split_and!.
Qed.

Lemma Or_pure_passes (fs : list (T → option error)) value s :
  Exists (λ f, f value = None) fs →
  Or (pure_validator <$> fs) value s = (None, s).
Proof.
  intros (pre & g & post & -> & Hg & Hpre)%first_pass_split.
  destruct (all_fail_pure pre value s Hpre) as [errs Hfail].
  rewrite fmap_app, fmap_cons.
  apply (Or_first_pass _ _ _ _ _ _ _ _ Hfail).
  unfold pure_validator, ret. by rewrite Hg.
Qed.

Lemma Or_pure_fails (fs : list (T → option error)) value s :
  Forall (λ f, f value ≠ None) fs →
  is_Some (Or (pure_validator <$> fs) value s).1
  ∧ (Or (pure_validator <$> fs) value s).2 = s.
Proof.
  intros Hall. destruct (all_fail_pure fs value s Hall) as [errs Hfail]. split.
  - by eapply Or_all_fail_is_Some.
  - by rewrite (Or_all_fail _ _ _ _ _ Hfail).
Qed.

Lemma And_pure_passes (fs : list (T → option error)) value s :
  (And (pure_validator <$> fs) value s).1 = None ↔ Forall (λ f, f value = None) fs.
Proof.
  induction fs as [|f fs IH]; simpl; [by split; [constructor|]|].
  unfold bind, pure_validator at 1, ret at 1. rewrite Forall_cons.
  destruct (f value) as [e|]; simpl.
  - split; [done|]. by intros [? _].
  - rewrite IH. split; [by split|]. by intros [_ ?].
Qed.

End CombinatorFacts.

(** X1. [And] is the sequential runner as a validator: on every input and
    world it gives what [Validate] gives for the same validators, so it
    passes with no validators and [And] of a concatenation runs the first
    list and, only if it passes, the second. *)
Theorem And_is_the_sequential_runner {W T} (vs1 vs2 : list (Validator W T))
    (value : T) (s : W) :
  And vs1 value s = Validate value vs1 s
  ∧ And [] value s = (None, s)
  ∧ And (vs1 ++ vs2) value s
    = match And vs1 value s with
      | (Some e, s1) => (Some e, s1)
      | (None, s1) => And vs2 value s1
      end.
Proof.
  split_and!; [apply And_Validate|done|].
  rewrite !And_Validate, Validate_app.
  destruct (Validate value vs1 s) as [[e|] s1]; [done|]. by rewrite And_Validate.
Qed.

(** X2. For validators without effects, [Or] passes exactly when at least
    one of them passes, and fails (with some error) exactly when all fail;
    it leaves the world as it found it. *)
Theorem Or_passes_iff_some_validator_passes {W T} (fs : list (T → option error))
    (value : T) (s : W) :
  ((Or (pure_validator <$> fs) value s).1 = None ↔ Exists (λ f, f value = None) fs)
  ∧ (is_Some (Or (pure_validator <$> fs) value s).1 ↔ Forall (λ f, f value ≠ None) fs)
  ∧ (Or (pure_validator <$> fs) value s).2 = s.
Proof.
  destruct (decide (Exists (λ f, f value = None) fs)) as [Hex|Hnex].
  - rewrite (Or_pure_passes _ _ _ Hex). cbn [fst snd]. split_and!; [done| |done].
    split; [by intros [? ?]|].
    intros Hall. apply Exists_exists in Hex as (f & Hin & Hf).
    rewrite Forall_forall in Hall. by destruct (Hall f Hin).
  - assert (Forall (λ f, f value ≠ None) fs) as Hall.
    { apply Forall_forall. intros f Hin Hf. apply Hnex, Exists_exists. eauto. }
    destruct (Or_pure_fails fs value s Hall) as [[e He] Hs].
    split_and!; [|by rewrite He|done].
    rewrite He. split; [done|]. intros Hex. by destruct Hnex.
Qed.

(** X3. [Or] of a single validator is that validator: same result, same
    world, on every input. *)
Theorem Or_singleton_is_the_validator {W T} (validator : Validator W T)
    (value : T) (s : W) :
  Or [validator] value s = validator value s.
Proof.
  unfold Or. simpl. unfold bind, ret.
  by destruct (validator value s) as [[e|] s'].
Qed.

(** X4. When every validator of [Or] fails, the error returned is a
    validation error whenever [Or] was given no validator or at least two,
    whatever the failures are; with exactly one validator it is a validation
    error only if that validator's own error is one. *)
Theorem Or_failure_is_validation_error_unless_single {W T} (value : T)
    (vs : list (Validator W T)) (s s' : W) (errs : list error) :
  all_fail value vs s errs s' →
  IsValidationError (Or vs value s).1
  = if Nat.eqb (length vs) 1 then existsb is_validation errs else true.
Proof.
  intros Hfail. pose proof (all_fail_length _ _ _ _ _ Hfail) as Hlen.
  rewrite (Or_all_fail _ _ _ _ _ Hfail), Hlen. cbn [fst].
  destruct (Nat.eqb (length vs) 1) eqn:Hone.
  - apply Nat.eqb_eq in Hone. rewrite Hone in Hlen.
    destruct errs as [|e [|e' errs]]; try done. simpl. by rewrite orb_false_r.
  - destruct (WrapError_is_Some
                (fmt_Errorf_w "all validators failed: " (errors_Join (Some <$> errs))))
      as [r Hr].
    rewrite Hr. by eapply WrapError_is_validation.
Qed.

(** Two validators failing with errors.New errors: the result is a
    validation error all the same. *)
Lemma Or_failure_is_validation_error_unless_single_witness :
  IsValidationError (Or [fails_with "a"; fails_with "b"] 4%Z tt).1 = true.
Proof.
  refine (Or_failure_is_validation_error_unless_single (W:=unit) 4%Z
            [fails_with "a"; fails_with "b"] tt tt [errorString "a"; errorString "b"] _).
  eapply all_fail_cons; [reflexivity|].
  eapply all_fail_cons; [reflexivity|]. apply all_fail_nil.
Defined.

(** X5. [When] and [Unless] on the same condition make a two-way branch:
    in sequence they run the first validator if the condition holds and the
    second if it does not, and the other validator is not called. *)
Theorem When_Unless_branch {W T} (condition : bool) (v1 v2 : Validator W T)
    (value : T) (s : W) :
  Validate value [When condition v1; Unless condition v2] s
  = if condition then v1 value s else v2 value s.
Proof.
  destruct condition; simpl; unfold bind, ret, Unless, When; simpl.
  - by destruct (v1 value s) as [[e|] s1].
  - by destruct (v2 value s) as [[e|] s1].
Qed.

(** X6. [WithMessage] keeps the outcome of the wrapped validator and leaves
    the world as that validator does; every failure it reports is a
    validation error carrying the custom message; and of two nested
    [WithMessage] the outer message is the one reported. *)
Theorem WithMessage_outer_message_wins {W T} (validator : Validator W T)
    (inner outer : string) (value : T) (s : W) :
  ((WithMessage validator outer value s).1 = None ↔ (validator value s).1 = None)
  ∧ (WithMessage validator outer value s).2 = (validator value s).2
  ∧ (∀ e, (WithMessage validator outer value s).1 = Some e →
       Error e = outer ∧ IsValidationError (Some e) = true)
  ∧ WithMessage (WithMessage validator inner) outer value s
    = WithMessage validator outer value s.
Proof.
  unfold WithMessage, bind, ret.
  destruct (validator value s) as [[e|] s1]; simpl; split_and!; try done.
  by intros e' [= <-].
Qed.

(** X7. De Morgan for validators without effects: [Not (And ...)] passes
    exactly when some validator fails, and [Not (Or ...)] passes exactly
    when every validator fails. *)
Theorem Not_And_Or_de_morgan {W T} (fs : list (T → option error)) (value : T) (s : W) :
  ((Not (And (pure_validator <$> fs)) value s).1 = None
   ↔ Exists (λ f, f value ≠ None) fs)
  ∧ ((Not (Or (pure_validator <$> fs)) value s).1 = None
     ↔ Forall (λ f, f value ≠ None) fs).
Proof.
  split.
  - pose proof (And_pure_passes (W:=W) fs value s) as Hand.
    unfold Not, bind, ret.
    destruct (And (pure_validator <$> fs) value s) as [[e|] s1]; simpl in *.
    + split; [intros _|done].
      destruct (decide (Exists (λ f, f value ≠ None) fs)) as [?|Hn]; [done|].
      assert (Forall (λ f, f value = None) fs) as Hall.
      { apply Forall_forall. intros f Hin.
        destruct (f value) as [e'|] eqn:Hf; [|done].
        destruct Hn. apply Exists_exists. exists f. split; [done|congruence]. }
      apply Hand in Hall. done.
    + split; [done|]. intros (f & Hin & Hf)%Exists_exists.
      destruct Hand as [Hand _]. specialize (Hand eq_refl).
      rewrite Forall_forall in Hand. by destruct Hf; apply Hand.
  - destruct (decide (Exists (λ f, f value = None) fs)) as [Hex|Hnex].
    + unfold Not, bind. rewrite (Or_pure_passes _ _ _ Hex). simpl.
      split; [done|]. intros Hall. apply Exists_exists in Hex as (f & Hin & Hf).
      rewrite Forall_forall in Hall. by destruct (Hall f Hin).
    + assert (Forall (λ f, f value ≠ None) fs) as Hall.
      { apply Forall_forall. intros f Hin Hf. apply Hnex, Exists_exists. eauto. }
      destruct (Or_pure_fails (W:=W) fs value s Hall) as [[e He] _].
      unfold Not, bind.
      destruct (Or (pure_validator <$> fs) value s) as [r s1]. simpl in *.
      subst r. by split.
Qed.

(** ** collection.go: membership *)

Section MembershipFacts.
Context {W T : Type} `{EqDecision T}.
Variable fmt_Sprint : T → string.
Variable strings_ToLower : string → string.
Variable fmt_v : list T → string.




(** X9. [In] and [NotIn] with the same flag and the same list are
    complementary: on every value exactly one of them passes. *)
Theorem In_NotIn_complementary (caseInsensitive : bool) (items : list T) (v : T) (s : W) :
  ((Membership.In fmt_Sprint strings_ToLower fmt_v caseInsensitive items v s).1 = None
   ↔ is_Some (Membership.NotIn fmt_Sprint strings_ToLower fmt_v caseInsensitive items v s).1)
  ∧ ((Membership.NotIn fmt_Sprint strings_ToLower fmt_v caseInsensitive items v s).1 = None
     ↔ is_Some (Membership.In fmt_Sprint strings_ToLower fmt_v caseInsensitive items v s).1).
Proof.
  unfold Membership.In, Membership.NotIn, ret.
  destruct caseInsensitive.
  - destruct (Membership.lowered_match _ _ _ items); simpl;
      split; split; try done; try (by intros [? ?]); by eexists.
  - destruct (Membership.slices_Contains items v); simpl;
      split; split; try done; try (by intros [? ?]); by eexists.
Qed.


End MembershipFacts.


(** ** collection.go: sizes and uniqueness *)

(** X11. [MinItems] passes exactly on slices of at least [minimum] items and
    [MaxItems] exactly on slices of at most [maximum] items, the bounds being
    signed: a minimum of zero or less accepts every slice and a negative
    maximum rejects every slice, the empty one included. [NotEmpty] accepts
    exactly what [MinItems 1] accepts. *)
Theorem MinItems_MaxItems_bounds {W T} (minimum maximum : Z) (values : list T) (s : W) :
  ((MinItems minimum values s).1 = None ↔ (minimum ≤ Z.of_nat (length values))%Z)
  ∧ ((MaxItems maximum values s).1 = None ↔ (Z.of_nat (length values) ≤ maximum)%Z)
  ∧ ((minimum ≤ 0)%Z → (MinItems minimum values s).1 = None)
  ∧ ((maximum < 0)%Z → is_Some (MaxItems maximum values s).1)
  ∧ ((NotEmpty values s).1 = None ↔ (MinItems 1 values s).1 = None)
  ∧ ((NotEmpty values s).1 = None ↔ values ≠ []).
Proof.
  unfold MinItems, MaxItems, NotEmpty, ret. rewrite Z.gtb_ltb.
  destruct (Z.ltb_spec (Z.of_nat (length values)) minimum);
    destruct (Z.ltb_spec maximum (Z.of_nat (length values)));
    destruct (Z.ltb_spec (Z.of_nat (length values)) 1);
    destruct values as [|x values]; simpl in *;
    split_and!; try (split; intros; try done; lia); intros; try done; try lia;
    by eexists.
Qed.

Lemma MinItems_MaxItems_bounds_witness :
  (MinItems (W:=unit) (-3) ([] : list nat) tt).1 = None.
Proof.
  destruct (MinItems_MaxItems_bounds (W:=unit) (-3) 0 ([] : list nat) tt)
    as (_ & _ & Hmin & _).
  apply Hmin. lia.
Defined.

(** X12. [MinItems a] followed by [MaxItems b] in the sequential runner
    passes exactly on slices whose length lies between [a] and [b]; a slice
    that is too short is reported by [MinItems], and only a slice that is
    long enough can be reported by [MaxItems]. *)
Theorem MinItems_then_MaxItems_window {W T} (a b : Z) (values : list T) (s : W) :
  ((Validate values [MinItems a; MaxItems b] s).1 = None
   ↔ (a ≤ Z.of_nat (length values) ≤ b)%Z)
  ∧ Validate values [MinItems a; MaxItems b] s
    = (if (Z.of_nat (length values) <? a)%Z then MinItems a values s
       else MaxItems b values s).
Proof.
  simpl. unfold bind, MinItems, MaxItems, ret. rewrite Z.gtb_ltb.
  destruct (Z.ltb_spec (Z.of_nat (length values)) a);
    destruct (Z.ltb_spec b (Z.of_nat (length values))); simpl;
    split; try done; split; intros; try done; lia.
Qed.

Section UniqueFacts.
Context {W T : Type} `{Countable T}.
Variable fmt_v : T → string.





End UniqueFacts.


(** ** collection.go: the map validators and the order of the keys *)

Section MapOrderFacts.
Context {W V : Type}.
Variable q : string → string.
Implicit Types (m : gmap string V) (rules : list (MapKeyRule W V)) (s : W).

Lemma extra_keys_None_order m order1 order2 (validated : gmap string bool) :
  range_order m order1 → range_order m order2 →
  extra_keys q order1 validated = None → extra_keys q order2 validated = None.
Proof.
  intros H1 H2. rewrite !extra_keys_None. intros Hall k Hk. apply Hall.
  apply (range_order_elem m order1 k H1). by apply (range_order_elem m order2 k H2).
Qed.

(** X15. Whether a map validator fails does not depend on the order in
    which the runtime ranges over the keys of the map, and neither does the
    world it leaves; with extra keys allowed the result is the same for
    every order. Only the key named by a "not expected" error can differ. *)
Theorem map_validation_outcome_independent_of_order (order1 order2 : list string)
    m (allowExtra : bool) rules s :
  range_order m order1 → range_order m order2 →
  ((validate_map q order1 m allowExtra rules s).1 = None
   ↔ (validate_map q order2 m allowExtra rules s).1 = None)
  ∧ (validate_map q order1 m allowExtra rules s).2
    = (validate_map q order2 m allowExtra rules s).2
  ∧ (allowExtra = true →
     validate_map q order1 m allowExtra rules s
     = validate_map q order2 m allowExtra rules s).
Proof.
  intros H1 H2. unfold validate_map, bind.
  destruct (rules_loop q m rules ∅ s) as [[e|validated] s1]; [done|].
  destruct allowExtra; simpl; [done|]. unfold ret. simpl. split_and!; [|done|done].
  split.
  - by apply (extra_keys_None_order m order1 order2).
  - by apply (extra_keys_None_order m order2 order1).
Qed.

(** X16. When all rules are satisfied, extra keys are disallowed and exactly
    one key of the map is covered by no rule, the error names that key,
    whatever the order of the keys. *)
Theorem map_validation_names_the_only_extra_key (order : list string) m rules s s'
    (k : string) :
  rules_pass m rules s s' → range_order m order →
  k ∈ dom m → k ∉ (key <$> rules) →
  (∀ k', k' ∈ dom m → k' ≠ k → k' ∈ (key <$> rules)) →
  validate_map q order m false rules s
  = (Some (errorString ("key " +:+ q k +:+ " not expected")), s').
Proof.
  intros Hpass Horder Hk Hnot Honly.
  rewrite (validate_map_rules_pass q _ _ _ _ _ _ Hpass). simpl. f_equal.
  destruct (extra_keys q order (mark_validated rules ∅)) as [e|] eqn:Hextra.
  - apply extra_keys_Some in Hextra as (k0 & Hin & Hk0 & ->).
    destruct (decide (k0 = k)) as [->|Hne]; [done|].
    assert (k0 ∈ (key <$> rules)) as Hcov.
    { apply Honly; [|done]. by apply (range_order_elem m order). }
    apply covered_by_rules in Hcov. congruence.
  - exfalso. apply Hnot, covered_by_rules.
    eapply extra_keys_None; [done|]. by apply (range_order_elem m order).
Qed.

End MapOrderFacts.

Lemma range_order_intro {V} (m : gmap string V) (order : list string) :
  NoDup order → (∀ k, k ∈ order ↔ k ∈ dom m) → range_order m order.
Proof.
  intros Hnd Hdom. unfold range_order. apply NoDup_Permutation; [done| |].
  - apply NoDup_elements.
  - intros k. by rewrite elem_of_elements.
Qed.

Lemma NoDup_pair (a b : string) : a ≠ b → NoDup [a; b].
Proof.
  intros Hne. apply NoDup_cons. split; [|apply NoDup_singleton].
  by intros ->%list_elem_of_singleton.
Qed.

Lemma dom_pair {V} (a b : string) (x y : V) (k : string) :
  k ∈ dom ({[ a := x; b := y ]} : gmap string V) ↔ k = a ∨ k = b.
Proof.
  rewrite dom_insert_L, dom_singleton_L, elem_of_union, !elem_of_singleton. done.
Qed.

(** The scenario of the repository's test: "name" is covered, "extra" is
    not; the two orders of the keys give the same outcome. *)
Lemma map_validation_outcome_independent_of_order_witness :
  (ValidateStringMap (W:=unit) quote_plain ["name"; "extra"]
     {[ "name" := "John"; "extra" := "value" ]} false [MapKey "name" true [passes]] tt).1
  = None
  ↔ (ValidateStringMap (W:=unit) quote_plain ["extra"; "name"]
       {[ "name" := "John"; "extra" := "value" ]} false [MapKey "name" true [passes]] tt).1
    = None.
Proof.
  refine (proj1 (map_validation_outcome_independent_of_order (W:=unit) quote_plain
                   ["name"; "extra"] ["extra"; "name"]
                   {[ "name" := "John"; "extra" := "value" ]} false
                   [MapKey "name" true [passes]] tt _ _)).
  - apply range_order_intro; [by apply NoDup_pair|].
    intros k. rewrite dom_pair, elem_of_cons, list_elem_of_singleton. tauto.
  - apply range_order_intro; [by apply NoDup_pair|].
    intros k. rewrite dom_pair, elem_of_cons, list_elem_of_singleton. tauto.
Defined.

Lemma map_validation_names_the_only_extra_key_witness :
  ValidateStringMap (W:=unit) quote_plain ["extra"; "name"]
    {[ "name" := "John"; "extra" := "value" ]} false [MapKey "name" true [passes]] tt
  = (Some (errorString ("key " +:+ quote_plain "extra" +:+ " not expected")), tt).
Proof.
  refine (map_validation_names_the_only_extra_key (W:=unit) quote_plain
            ["extra"; "name"] {[ "name" := "John"; "extra" := "value" ]}
            [MapKey "name" true [passes]] tt tt "extra" _ _ _ _ _).
  - eapply rules_pass_present; [reflexivity| |apply rules_pass_nil].
    eapply all_pass_cons; [reflexivity|apply all_pass_nil].
  - apply range_order_intro; [by apply NoDup_pair|].
    intros k. rewrite dom_pair, elem_of_cons, list_elem_of_singleton. tauto.
  - apply dom_pair. by right.
  - intros Hin%list_elem_of_singleton. discriminate.
  - intros k' Hk'%dom_pair Hne. apply list_elem_of_singleton.
    destruct Hk' as [->| ->]; [reflexivity|by destruct Hne].
Defined.

(** ** Optional fields and required values *)

(** X17. [OptionalWith] is [NilOr] applied to [And] of the same validators:
    nil passes without any validator being called, and a non-nil pointer
    goes through the validators in order up to the first failure. *)
Theorem OptionalWith_is_NilOr_of_And {W T} (vs : list (Validator W T))
    (p : option T) (s : W) :
  OptionalWith vs p s = NilOr (And vs) p s
  ∧ OptionalWith vs None s = (None, s).
Proof.
  split; [|done]. destruct p as [x|]; simpl; [|done]. by rewrite And_Validate.
Qed.

(** X18. [NotNil] followed by [NilOr v] in the sequential runner makes a
    field mandatory: nil fails with "cannot be nil" and [v] is not called; a
    non-nil pointer gets exactly what [v] gives on the value pointed to. *)
Theorem NotNil_then_NilOr {W T} (validator : Validator W T) (p : option T) (s : W) :
  Validate p [NotNil; NilOr validator] s
  = match p with
    | None => (Some (errorString "cannot be nil"), s)
    | Some x => validator x s
    end.
Proof.
  destruct p as [x|]; simpl; unfold bind, ret; simpl; [|done].
  by destruct (validator x s) as [[e|] s1].
Qed.

(** X19. [NilOrNotEmpty] accepts exactly what [NilOr] of [Required] on
    strings accepts: nil and every non-empty string; the empty string is
    rejected by both, with different messages. *)
Theorem NilOrNotEmpty_is_NilOr_Required {W} (p : option string) (s : W) :
  ((NilOrNotEmpty p s).1 = None ↔ (NilOr (Required "") p s).1 = None)
  ∧ ((NilOrNotEmpty p s).1 = None ↔ p ≠ Some "")
  ∧ (NilOrNotEmpty (Some "") s).1
    = Some (errorString "cannot be empty string (must be nil or non-empty)")
  ∧ (NilOr (Required "") (Some "") s).1 = Some (errorString "required").
Proof.
  split_and!; [| |done|done].
  - destruct p as [x|]; simpl; [|done]. unfold Required, ret.
    destruct (String.eqb_spec x ""); simpl.
    + by rewrite bool_decide_eq_true_2.
    + by rewrite bool_decide_eq_false_2.
  - destruct p as [x|]; simpl; [|done]. unfold ret.
    destruct (String.eqb_spec x ""); simpl; split; congruence.
Qed.

(** X20. [RequiredIf c] is [When c Required]: the same result on every
    value, nil without looking at the value when the condition is false. *)
Theorem RequiredIf_is_When_Required {W T} `{EqDecision T} (zero : T)
    (condition : bool) (v : T) (s : W) :
  RequiredIf zero condition v s = When condition (Required zero) v s
  ∧ RequiredIf zero false v s = (None, s)
  ∧ ((RequiredIf zero true v s).1 = None ↔ v ≠ zero).
Proof.
  unfold RequiredIf, When, Required, ret. split_and!; [by destruct condition|done|].
  simpl. case_bool_decide; simpl; split; congruence.
Qed.

(** ** numeric.go *)

(** X21. On integers, [Range a b] accepts exactly the values between [a]
    and [b], bounds included, which are the values [Min a] followed by
    [Max b] accept; when [b] is below [a] it rejects every value. *)
Theorem Range_is_Min_and_Max {W} (a b v : Z) (s : W) :
  ((Range a b v s).1 = None ↔ (a ≤ v ≤ b)%Z)
  ∧ ((Range a b v s).1 = None ↔ (Validate v [Min a; Max b] s).1 = None)
  ∧ ((b < a)%Z → is_Some (Range a b v s).1).
Proof.
  simpl. unfold bind, Range, Min, Max, ret. rewrite !Z.gtb_ltb.
  destruct (Z.ltb_spec v a); destruct (Z.ltb_spec b v); simpl;
    split_and!; try (split; intros; try done; lia); intros; try lia; by eexists.
Qed.

Lemma Range_is_Min_and_Max_witness : is_Some (Range (W:=unit) 5 1 3%Z tt).1.
Proof.
  destruct (Range_is_Min_and_Max (W:=unit) 5 1 3%Z tt) as (_ & _ & Hempty).
  apply Hempty. lia.
Defined.


(** X23. The sign validators are thresholds at zero: [Positive] accepts what
    [GreaterThan 0] accepts, [Negative] what [LessThan 0] accepts and
    [NonNegative] what [Min 0] accepts; zero is rejected by [Positive] and by
    [Negative], and every other integer is accepted by exactly one of them. *)
Theorem sign_validators_are_thresholds_at_zero {W} (v : Z) (s : W) :
  ((Positive v s).1 = None ↔ (GreaterThan 0 v s).1 = None)
  ∧ ((Negative v s).1 = None ↔ (LessThan 0 v s).1 = None)
  ∧ ((NonNegative v s).1 = None ↔ (Min 0 v s).1 = None)
  ∧ ((NonNegative v s).1 = None ↔ is_Some (Negative v s).1)
  ∧ (v = 0%Z ↔ is_Some (Positive v s).1 ∧ is_Some (Negative v s).1)
  ∧ ¬ ((Positive v s).1 = None ∧ (Negative v s).1 = None).
Proof.
  unfold Positive, Negative, NonNegative, GreaterThan, LessThan, Min, ret.
  rewrite !Z.geb_leb.
  destruct (Z.leb_spec v 0); destruct (Z.leb_spec 0 v); destruct (Z.ltb_spec v 0);
    try lia; simpl; split_and!;
    try (split; try done; try (by intros [? ?]); try (by eexists));
    try (intros [? [? ?]]; (done || lia)); try (intros [? ?]; done);
    try (intros; split; by eexists); try lia.
Qed.

(** X24. [MultipleOf d] panics on a zero divisor. With a non-zero divisor it
    returns, and passes exactly on the multiples of [d], negative ones and
    zero included; [d] and [-d] accept the same values. *)
Theorem MultipleOf_divisibility (d v : Z) :
  MultipleOf 0 v = panics "runtime error: integer divide by zero"
  ∧ (d ≠ 0%Z →
     (∃ r, MultipleOf d v = returns r)
     ∧ (MultipleOf d v = returns None ↔ (d | v)%Z)
     ∧ (MultipleOf d v = returns None ↔ MultipleOf (- d) v = returns None)).
Proof.
  split; [done|]. intros Hd. unfold MultipleOf.
  assert ((- d)%Z ≠ 0%Z) as Hd' by lia.
  destruct (Z.eqb_spec d 0); [done|]. destruct (Z.eqb_spec (- d) 0); [done|].
  pose proof (Z.rem_divide v d Hd) as Hdiv.
  assert (Z.rem v (- d) = Z.rem v d) as -> by by apply Z.rem_opp_r.
  destruct (Z.eqb_spec (Z.rem v d) 0) as [Hr|Hr]; simpl.
  - split_and!; [by eexists| |done]. split; [intros _; by apply Hdiv|done].
  - split_and!; [by eexists| |done]. split; [done|]. intros Hdv. by apply Hdiv in Hdv.
Qed.

Lemma MultipleOf_divisibility_witness : MultipleOf 5 (-15) = returns None.
Proof.
  destruct (MultipleOf_divisibility 5 (-15)) as [_ Hnz].
  destruct (Hnz ltac:(lia)) as (_ & Hdiv & _).
  apply Hdiv. exists (-3)%Z. reflexivity.
Defined.

(** ** String lengths *)

(** X25. [Length a b] accepts exactly the strings whose length in bytes lies
    between [a] and [b], which are the strings [MinLength a] followed by
    [MaxLength b] accept; the failures of all three are validation errors. *)
Theorem Length_is_MinLength_and_MaxLength {W} (a b : Z) (v : string) (s : W) :
  ((Length a b v s).1 = None ↔ (a ≤ Z.of_nat (String.length v) ≤ b)%Z)
  ∧ ((Length a b v s).1 = None ↔ (Validate v [MinLength a; MaxLength b] s).1 = None)
  ∧ (∀ e, (Length a b v s).1 = Some e → IsValidationError (Some e) = true)
  ∧ (∀ e, (Validate v [MinLength a; MaxLength b] s).1 = Some e →
       IsValidationError (Some e) = true).
Proof.
  simpl. unfold bind, Length, MinLength, MaxLength, ret. rewrite !Z.gtb_ltb.
  destruct (Z.ltb_spec (Z.of_nat (String.length v)) a);
    destruct (Z.ltb_spec b (Z.of_nat (String.length v))); simpl;
    split_and!; try (split; intros; try done; lia); by intros e [= <-].
Qed.

(** ** Dynamically typed maps *)

(** X26. In [ValidateAnyMap] a key whose value is nil, or any other value
    that is not a string, is present: a rule on that key that starts with
    [StringValidator] fails with "key <quoted key>: must be a string", not
    with the "required" error, whether the rule is required or not; the
    wrapped validator, the rule's other validators and the later rules are
    not called. *)
Theorem AnyMap_non_string_value_is_present_but_rejected {W} (q : string → string)
    (order : list string) (m : gmap string any) (allowExtra : bool)
    (k : string) (req : bool) (validator : Validator W string)
    (vs : list (Validator W any)) (rest : list (MapKeyRule W any))
    (val : any) (s : W) :
  m !! k = Some val → (∀ str, val ≠ any_string str) →
  ValidateAnyMap q order m allowExtra
    (MapKey k req (StringValidator validator :: vs) :: rest) s
  = (Some (wrapError (("key " +:+ q k +:+ ": ") +:+ "must be a string")
             (errorString "must be a string")), s).
Proof.
  intros Hk Hval. unfold ValidateAnyMap, validate_map, bind. simpl. rewrite Hk.
  unfold bind. simpl. unfold bind.
  destruct val as [|str|n|n|n|f|f|b|t]; try done. by destruct (Hval str).
Qed.

Lemma AnyMap_non_string_value_is_present_but_rejected_witness :
  ValidateAnyMap (W:=unit) quote_plain ["name"] {[ "name" := any_nil ]} true
    [MapKey "name" true [StringValidator passes]] tt
  = (Some (wrapError (("key " +:+ quote_plain "name" +:+ ": ") +:+ "must be a string")
             (errorString "must be a string")), tt).
Proof.
  refine (AnyMap_non_string_value_is_present_but_rejected (W:=unit) quote_plain
            ["name"] {[ "name" := any_nil ]} true "name" true passes [] [] any_nil tt
            _ _).
  - reflexivity.
  - intros str. discriminate.
Defined.
